(** * arxiv-frontpage: the content curation pipeline of [frontpage/datastream.py]

    A shallow embedding of the stream transforms of [DataStream]
    (deduplication, the partitioned archive writer, the training-set
    accumulator, section assignment and the content assembler) together
    with the properties stated about them.

    Conventions.
    - A Python [dict] used as a map is a [gmap]; a [dict] whose iteration
      order matters ([preds.items()], the groups of [nest_by]) is an
      association list in insertion order.
    - Probabilities and thresholds are Python floats that the code only
      compares; they are rationals here and [proba > t] is [Qgtb proba t].
    - A Python exception ([KeyError]) is [None] in the option monad.
    - Generators that yield the very same [dict] object several times are
      modelled with a store of records and a list of references into it. *)

From Stdlib Require Import QArith.
From stdpp Require Import gmap strings list sorting.

Local Open Scope string_scope.
Local Open Scope list_scope.
Local Open Scope nat_scope.

(** ** Comparisons used by the code *)

(** [proba > threshold] on floats. *)
Definition Qgtb (p t : Q) : bool := negb (Qle_bool p t).

(** ** The data model *)

(** A record of the clean download stream, as [download.parse] builds it. *)
Record Article := mkArticle {
  created : string;
  title : string;
  abstract : string;
  sentences : list string;
  url : string
}.

(** One per-sentence prediction mapping, in [items()] order. *)
Abbreviation Preds := (list (string * Q)).

(** A record inside the site pipeline: the article, the [preds] attached
    by [add_predictions], and the optional [sections] key. *)
Record Example := mkExample {
  base : Article;
  preds : list Preds;
  sections : option (list string)
}.

Definition with_sections (ex : Example) (s : list string) : Example :=
  {| base := base ex; preds := preds ex; sections := Some s |}.

(** [l in ex['sections']], false when the key is absent. *)
Definition carries (l : string) (ex : Example) : Prop :=
  match sections ex with Some s => l ∈ s | None => False end.

Global Instance carries_dec l ex : Decision (carries l ex).
Proof. unfold carries. destruct (sections ex); apply _. Defined.

(** ** Python dictionaries whose order is observable *)

(** A [dict] as its items in insertion order: assigning to a present key
    replaces the value where the key stands, assigning to a new key
    appends, and looking up or deleting a missing key fails. *)
Module PyDict.
Section ops.
Context {V : Type}.

Fixpoint get (k : string) (d : list (string * V)) : option V :=
  match d with
  | [] => None
  | (k', v) :: d' => if decide (k = k') then Some v else get k d'
  end.

Fixpoint set (k : string) (v : V) (d : list (string * V))
    : list (string * V) :=
  match d with
  | [] => [(k, v)]
  | (k', v') :: d' =>
      if decide (k = k') then (k', v) :: d' else (k', v') :: set k v d'
  end.

(** [del d[k]] *)
Fixpoint del (k : string) (d : list (string * V))
    : option (list (string * V)) :=
  match d with
  | [] => None
  | (k', v') :: d' =>
      if decide (k = k') then Some d' else (λ r, (k', v') :: r) <$> del k d'
  end.

(** [{k: v for k, v in items}] continued from [d]. *)
Definition update (d : list (string * V)) (items : list (string * V))
    : list (string * V) :=
  foldl (λ acc '(k, v), set k v acc) d items.
End ops.
End PyDict.

(** ** Helpers of [utils] and of the [lazylines] package *)

Module Utils.

(** Modelled from the spec: [utils.dedup_stream], which emits each record
    the first time its key value is seen and drops every later record
    sharing that key value. [seen] holds the key values met so far. *)
Section dedup.
Context {A K : Type} `{EqDecision K}.
Variable key : A → K.

Fixpoint dedup_from (seen : list K) (stream : list A) : list A :=
  match stream with
  | [] => []
  | ex :: rest =>
      if decide (key ex ∈ seen) then dedup_from seen rest
      else ex :: dedup_from (key ex :: seen) rest
  end.

Definition dedup_stream (stream : list A) : list A := dedup_from [] stream.
End dedup.

(** [LazyLines.nest_by]: one group per key value, in the order in which
    the key values first occur, each with its members in stream order.
    [split] reads the key of an item and removes the key field from it;
    it fails where Python's [del item[key]] raises. *)
Section nest_by.
Context {A B K : Type} `{EqDecision K}.
Variable split : A → option (K * B).

Fixpoint group_add (k : K) (b : B) (groups : list (K * list B))
    : list (K * list B) :=
  match groups with
  | [] => [(k, [b])]
  | (k', bs) :: groups' =>
      if decide (k = k') then (k', bs ++ [b]) :: groups'
      else (k', bs) :: group_add k b groups'
  end.

Fixpoint nest_loop (stream : list A) (groups : list (K * list B))
    : option (list (K * list B)) :=
  match stream with
  | [] => Some groups
  | x :: rest => '(k, b) ← split x; nest_loop rest (group_add k b groups)
  end.

Definition nest_by (stream : list A) : option (list (K * list B)) :=
  nest_loop stream [].
End nest_by.

(** The first [n] characters of a string: [s[:n]]. *)
Fixpoint str_take (n : nat) (s : string) : string :=
  match n, s with
  | S n', String c s' => String c (str_take n' s')
  | _, _ => EmptyString
  end.

(** Python's [sorted(xs, key=...)] on string keys: a stable sort into
    ascending order. *)
Section sorted.
Context {A : Type}.
Variable key : A → string.

Fixpoint insert_sorted (x : A) (xs : list A) : list A :=
  match xs with
  | [] => [x]
  | y :: ys =>
      if String.leb (key x) (key y) then x :: y :: ys
      else y :: insert_sorted x ys
  end.

Definition sorted (xs : list A) : list A := foldr insert_sorted [] xs.
End sorted.

End Utils.

(** ** The partitioned archive writer *)

Module Archive.
Import Utils.

(** [get_raw_download_stream]: the download files in reverse glob order,
    chained. *)
Definition get_raw_download_stream (downloads : list (list Article))
    : list Article :=
  concat (reverse downloads).

Definition set_created (day : string) (a : Article) : Article :=
  {| created := day; title := title a; abstract := abstract a;
     sentences := sentences a; url := url a |}.

(** [.mutate(created=lambda d: d['created'][:10])] *)
Definition mutate_created (a : Article) : Article :=
  set_created (str_take 10 (created a)) a.

(** The key of [nest_by("created")]. The nested items lose their
    [created] key and the writer puts the group's key back, so the typed
    record simply keeps its field in between. *)
Definition split_created (a : Article) : option (string * Article) :=
  Some (created a, a).

Section writer.
(** [srsly.write_jsonl]: the file content for a sequence of records. *)
Variable jsonl : list Article → string.

(** One iteration of [for group in nested]: the partition file of the
    day is replaced by the serialised group, every record carrying the
    group key as [created]. Paths are relative to
    [CLEAN_DOWNLOADS_FOLDER]. *)
Definition write_group (fs : gmap string string)
    (group : string * list Article) : gmap string string :=
  let '(day, subset) := group in
  <[day +:+ ".jsonl" := jsonl (set_created day <$> subset)]> fs.

(** [save_clean_download_stream], from the content of
    [DOWNLOADS_FOLDER] and the previous content of
    [CLEAN_DOWNLOADS_FOLDER] to the new content of the latter. *)
Definition save_clean_download_stream (downloads : list (list Article))
    (fs : gmap string string) : option (gmap string string) :=
  let stream := dedup_stream abstract (get_raw_download_stream downloads) in
  nested ← nest_by split_created (mutate_created <$> stream);
  Some (foldl write_group fs nested).
End writer.

End Archive.

(** ** The training-set accumulator *)

Module Train.
Import Utils.

(** One judgment of an annotation file. *)
Record Annotation := mkAnnotation {
  text : string;
  label : string;
  answer : string
}.

(** The values of the flat rows handed to the accumulator. *)
Inductive Val :=
  | VStr (s : string)
  | VInt (n : Z).

Global Instance Val_eq_dec : EqDecision Val.
Proof. solve_decision. Defined.

Abbreviation Row := (list (string * Val)).

(** [outcome] after the two [if]s; [None] is Python's [None]. *)
Definition outcome_of (ans : string) : option Z :=
  let outcome := None in
  let outcome := if decide (ans = "accept") then Some 1%Z else outcome in
  let outcome := if decide (ans = "reject") then Some 0%Z else outcome in
  outcome.

(** [{"text": ex["text"], ex["label"]: outcome}]: a dict display, the
    second item replacing the first when the label is itself ["text"]. *)
Definition train_row (ex : Annotation) (outcome : Z) : Row :=
  PyDict.set (label ex) (VInt outcome) (PyDict.set "text" (VStr (text ex)) []).

Fixpoint _sentence_data_to_train_format (stream : list Annotation)
    : list Row :=
  match stream with
  | [] => []
  | ex :: rest =>
      match outcome_of (answer ex) with
      | Some outcome => train_row ex outcome :: _sentence_data_to_train_format rest
      | None => _sentence_data_to_train_format rest
      end
  end.

(** A record of the accumulated training set. *)
Record TrainingExample := mkTrainingExample {
  tx_text : Val;
  categories : Row
}.

(** The key and the stripped item of [nest_by("text")]. *)
Definition split_text (row : Row) : option (Val * Row) :=
  t ← PyDict.get "text" row;
  rest ← PyDict.del "text" row;
  Some (t, rest).

(** [.mutate(categories=lambda d: {k: v for ex in d['subset']
                                        for k, v in ex.items()})
      .drop("subset")] on one group. *)
Definition nest_categories (group : Val * list Row) : TrainingExample :=
  {| tx_text := group.1;
     categories := foldl PyDict.update [] group.2 |}.

Definition _accumulate_train_stream (stream : list Row)
    : option (list TrainingExample) :=
  nested ← nest_by split_text stream;
  Some (map nest_categories nested).

(** A line of an annotation file as [get_train_stream] reads it: the
    text and the optional [categories] and [cats] keys. *)
Record AnnotLine := mkAnnotLine {
  line_text : string;
  line_categories : option (gmap string Z);
  line_cats : option (gmap string Z)
}.

(** [if "categories" not in ex and "cats" in ex:
       ex["categories"] = ex["cats"]] *)
Definition cats_shim (ex : AnnotLine) : AnnotLine :=
  match line_categories ex, line_cats ex with
  | None, Some c =>
      {| line_text := line_text ex; line_categories := Some c;
         line_cats := Some c |}
  | _, _ => ex
  end.

(** [get_train_stream]: [annot] maps a label to the lines of
    [ANNOT_FOLDER / f"{label}.jsonl"]; a missing file raises. *)
Fixpoint get_train_stream (annot : gmap string (list AnnotLine))
    (LABELS : list string) : option (list AnnotLine) :=
  match LABELS with
  | [] => Some []
  | lab :: LABELS' =>
      lines ← annot !! lab;
      rest ← get_train_stream annot LABELS';
      Some ((cats_shim <$> lines) ++ rest)
  end.

End Train.

(** ** Section assignment: [upper_limit] inside [get_site_stream] *)

Module Site.

Definition limit : nat := 50.

(** [tracker = {lab: 0 for lab in LABELS}] *)
Definition init_tracker (LABELS : list string) : gmap string nat :=
  list_to_map ((λ lab, (lab, 0)) <$> LABELS).

(** [all(v == limit for v in tracker.values())] *)
Definition all_full (tracker : gmap string nat) : bool :=
  bool_decide (map_Forall (λ _ v, v = limit) tracker).

(** [list(set(secs))]: the distinct members, in the set's own order. *)
Definition list_set (secs : list string) : list string :=
  elements (list_to_set secs : gset string).

Section upper_limit.
Variable THRESHOLDS : gmap string Q.

(** The loop state while one record is visited: the tracker, the record
    object itself (mutated in place) and how often it was yielded. *)
Definition Visit : Type := gmap string nat * Example * nat.

(** The body of [for name, proba in preds.items()]. The three conjuncts
    of the guard are evaluated left to right, so [THRESHOLDS[name]] is
    only looked up for a tracked name and raises when it is missing. *)
Definition item_step (v : Visit) (it : string * Q) : option Visit :=
  let '(tracker, ex, y) := v in
  let '(name, proba) := it in
  match tracker !! name with
  | None => Some v
  | Some n =>
      t ← THRESHOLDS !! name;
      if Qgtb proba t && bool_decide (n < limit) then
        let secs := default [] (sections ex) in
        Some (<[name := S n]> tracker,
              with_sections ex (list_set (secs ++ [name])),
              S y)
      else Some v
  end.

Fixpoint items_loop (items : Preds) (v : Visit) : option Visit :=
  match items with
  | [] => Some v
  | it :: items' => v' ← item_step v it; items_loop items' v'
  end.

(** [for preds in ex['preds']] *)
Fixpoint preds_loop (ps : list Preds) (v : Visit) : option Visit :=
  match ps with
  | [] => Some v
  | p :: ps' => v' ← items_loop p v; preds_loop ps' v'
  end.

Definition visit (tracker : gmap string nat) (ex : Example) : option Visit :=
  preds_loop (preds ex) (tracker, ex, 0).

(** The result of draining the generator: the final tracker, the store
    (the records the loop has pulled from the input stream, in stream
    order and in their final state) and the references yielded, in
    order. A record the loop never pulls is not in the store. *)
Definition Run : Type := gmap string nat * list Example * list nat.

(** [for ex in stream: ...; if all(...): break], [idx] being the
    position of the head of [stream] in the whole input. *)
Fixpoint stream_loop (idx : nat) (stream : list Example)
    (tracker : gmap string nat) : option Run :=
  match stream with
  | [] => Some (tracker, [], [])
  | ex :: rest =>
      '(tracker', ex', y) ← visit tracker ex;
      if all_full tracker' then
        Some (tracker', [ex'], replicate y idx)
      else
        '(tracker'', store, refs) ← stream_loop (S idx) rest tracker';
        Some (tracker'', ex' :: store, replicate y idx ++ refs)
  end.

Definition upper_limit_run (LABELS : list string) (stream : list Example)
    : option Run :=
  stream_loop 0 stream (init_tracker LABELS).

(** What [.collect()] sees: one entry per yield, each the yielded
    object in its final state. *)
Definition collect (r : Run) : list Example :=
  let '(_, store, refs) := r in omap (λ i, store !! i) refs.

Definition upper_limit (LABELS : list string) (stream : list Example)
    : option (list Example) :=
  collect <$> upper_limit_run LABELS stream.
End upper_limit.

(** Modelled from the spec: [utils.add_predictions], which attaches to
    each record the ordered sequence of per-sentence label-probability
    mappings computed by the classifier from the record's sentences. *)
Definition add_predictions (model : list string → list Preds)
    (stream : list Article) : list Example :=
  (λ a, {| base := a; preds := model (sentences a); sections := None |})
    <$> stream.

(** [LazyLines(clean).head(1000).pipe(add_predictions, model=model)
      .pipe(upper_limit).collect()] *)
Definition get_site_stream_run (LABELS : list string)
    (THRESHOLDS : gmap string Q) (model : list string → list Preds)
    (clean : list Article) : option Run :=
  upper_limit_run THRESHOLDS LABELS (add_predictions model (take 1000 clean)).

Definition get_site_stream (LABELS : list string)
    (THRESHOLDS : gmap string Q) (model : list string → list Preds)
    (clean : list Article) : option (list Example) :=
  collect <$> get_site_stream_run LABELS THRESHOLDS model clean.

End Site.

(** ** The content assembler: [get_site_content] *)

Module Assembler.
Import Utils Site.

(** An entry of [CONFIG.sections]. *)
Record SectionConfig := mkSectionConfig {
  sec_label : string;
  sec_threshold : Q
}.

(** [editable]: a copy of the item with its [html] and [categories]. *)
Record Entry := mkEntry {
  item : Example;
  html : string;
  entry_categories : list (string * Z)
}.

(** A value of the [sections] dict: the section's own keys and
    [content]. *)
Record SectionOut := mkSectionOut {
  config : SectionConfig;
  content : list Entry
}.

Definition entry_abstract (e : Entry) : string := abstract (base (item e)).
Definition entry_created (e : Entry) : string := created (base (item e)).

Section get_site_content.
Variable THRESHOLDS : gmap string Q.
(** The text of [round(proba, 3)] inside the f-string. *)
Variable show_proba : Q → string.

Definition proba_span (proba : Q) : string :=
  "<span style='font-size: 0.65rem;' class='text-purple-500 font-bold'>"
    +:+ show_proba proba +:+ "</span>".

(** [for sent, pred in zip(item['sentences'], item['preds'])] *)
Fixpoint render_loop (section : string) (pairs : list (string * Preds))
    (text : string) : option string :=
  match pairs with
  | [] => Some text
  | (sent, pred) :: pairs' =>
      proba ← PyDict.get section pred;
      t ← THRESHOLDS !! section;
      let addition :=
        if Qgtb proba t then
          "<span class='px-1 mx-1 bg-yellow-200'>" +:+ sent +:+ " "
            +:+ proba_span proba +:+ "</span>"
        else sent in
      render_loop section pairs' (text +:+ addition)
  end.

Definition render_html (it : Example) (section : string) : option string :=
  text ← render_loop section (zip (sentences (base it)) (preds it)) "";
  Some ("<p>" +:+ text +:+ "</p>").

(** [{dict(section)['label']: {**dict(section), "content": []}
      for section in CONFIG.sections}] *)
Definition init_sections (cfg : list SectionConfig)
    : list (string * SectionOut) :=
  foldl (λ acc c, PyDict.set (sec_label c)
                    {| config := c; content := [] |} acc) [] cfg.

(** [for section in item['sections']] *)
Fixpoint place_item (it : Example) (secs : list string)
    (buckets : list (string * SectionOut))
    : option (list (string * SectionOut)) :=
  match secs with
  | [] => Some buckets
  | section :: secs' =>
      h ← render_html it section;
      let editable :=
        {| item := it; html := h; entry_categories := [] |} in
      bucket ← PyDict.get section buckets;
      place_item it secs'
        (PyDict.set section
           {| config := config bucket;
              content := content bucket ++ [editable] |} buckets)
  end.

(** [for item in site_stream] *)
Fixpoint place_all (site_stream : list Example)
    (buckets : list (string * SectionOut))
    : option (list (string * SectionOut)) :=
  match site_stream with
  | [] => Some buckets
  | it :: rest =>
      secs ← sections it;
      buckets' ← place_item it secs buckets;
      place_all rest buckets'
  end.

(** The last loop: [reversed(sorted(dedup_stream(content,
    key="abstract"), key=lambda d: d['created']))]. *)
Definition finalize (s : SectionOut) : SectionOut :=
  {| config := config s;
     content :=
       reverse (sorted entry_created
                  (dedup_stream entry_abstract (content s))) |}.

Definition assemble (cfg : list SectionConfig) (stream : list Example)
    : option (list SectionOut) :=
  let site_stream := dedup_stream (λ ex, abstract (base ex)) stream in
  buckets ← place_all site_stream (init_sections cfg);
  Some (map (λ kv, finalize kv.2) buckets).

Definition get_site_content (LABELS : list string)
    (cfg : list SectionConfig) (model : list string → list Preds)
    (clean : list Article) : option (list SectionOut) :=
  stream ← get_site_stream LABELS THRESHOLDS model clean;
  assemble cfg stream.
End get_site_content.

End Assembler.

(** ** Reading the archive back and the streams for annotation *)

Module Clean.
Import Utils.

(** [s] ends with [suf]: what the pattern [*.jsonl] asks of a name. *)
Fixpoint ends_with (suf s : string) : bool :=
  if String.eqb s suf then true
  else match s with
       | EmptyString => false
       | String _ s' => ends_with suf s'
       end.

(** [folder.glob("**/*.jsonl")] over a folder given as a map from the
    paths below it to the file contents; the file system lists the
    paths in an order of its own. *)
Definition glob_jsonl {V} (folder : gmap string V) : list string :=
  filter (λ p, ends_with ".jsonl" p = true) (map_to_list folder).*1.

Section reader.
(** [srsly.read_jsonl] on the content of a file. *)
Variable read_jsonl : string → list Article.

(** [get_clean_download_stream]: the partition files in descending
    order of their paths, chained. *)
Definition get_clean_download_stream (fs : gmap string string)
    : list Article :=
  let glob := glob_jsonl fs in
  let arranged_glob := reverse (sorted id glob) in
  concat ((λ file, from_option read_jsonl [] (fs !! file)) <$> arranged_glob).
End reader.

(** The [meta] of a record handed to the annotation tools. *)
Record Meta := mkMeta {
  meta_created : option string;
  meta_url : string;
  meta_title : option string
}.

(** A record of [get_download_stream]; the sentence level has neither
    [sentences] nor [created]. *)
Record DownloadEx := mkDownloadEx {
  dl_text : string;
  dl_sentences : option (list string);
  dl_created : option string;
  dl_meta : Meta
}.

Definition abstract_ex (ex : Article) : DownloadEx :=
  {| dl_text := abstract ex;
     dl_sentences := Some (sentences ex);
     dl_created := Some (str_take 10 (created ex));
     dl_meta := {| meta_created := Some (str_take 10 (created ex));
                   meta_url := url ex;
                   meta_title := Some (title ex) |} |}.

Definition sentence_ex (ex : Article) (sent : string) : DownloadEx :=
  {| dl_text := sent;
     dl_sentences := None;
     dl_created := None;
     dl_meta := {| meta_created := None; meta_url := url ex;
                   meta_title := None |} |}.

(** [get_download_stream(level)] over the clean stream: every level
    other than ["abstract"] gives the sentences. *)
Definition get_download_stream (level : string) (stream : list Article)
    : list DownloadEx :=
  let abstract_stream := abstract_ex <$> stream in
  let sentences_stream :=
    concat ((λ ex, sentence_ex ex <$> sentences ex) <$> stream) in
  if decide (level = "abstract") then abstract_stream else sentences_stream.

End Clean.

(** ** Fetching new articles: [download.py] *)

Module Download.
Import Utils.

(** What the code reads of an [arxiv.Result]; [published] is
    [str(res.published)]. *)
Record Result := mkResult {
  published : string;
  res_title : string;
  summary : string;
  entry_id : string;
  primary_category : string
}.

(** [s.replace("\n", " ")] *)
Fixpoint replace_newlines (s : string) : string :=
  match s with
  | EmptyString => EmptyString
  | String c s' =>
      String (if Ascii.eqb c (Ascii.ascii_of_nat 10)
              then Ascii.ascii_of_nat 32 else c)
             (replace_newlines s')
  end.

(** [{article["title"]: article for article in articles}] *)
Definition by_title (articles : list Article) : list (string * Article) :=
  foldl (λ d a, PyDict.set (title a) a d) [] articles.

Section main.
(** The sentence texts that spaCy finds in a summary. *)
Variable nlp : string → list string.
(** [age_in_days], which reads the clock. *)
Variable age_in_days : Result → Q.

Definition parse (res : Result) : Article :=
  let summary := replace_newlines (summary res) in
  {| created := str_take 19 (published res);
     title := res_title res;
     abstract := summary;
     sentences := nlp summary;
     url := entry_id res |}.

(** [age_in_days(r) < 2.5 and r.primary_category.startswith("cs")] *)
Definition recent_cs (r : Result) : bool :=
  Qgtb 2.5 (age_in_days r) && String.prefix "cs" (primary_category r).

(** [list(sorted(DOWNLOADS_FOLDER.glob("*.jsonl")))[-1]], which raises
    on the empty list. *)
Definition most_recent_file (downloads : gmap string (list Article))
    : option string :=
  last (sorted id (Clean.glob_jsonl downloads)).

(** [main] once the search has returned [results]: [downloads] maps the
    names of the files of [DOWNLOADS_FOLDER] to the records they hold and
    [filename] is the name made from the clock. *)
Definition main (results : list Result) (filename : string)
    (downloads : gmap string (list Article))
    : option (gmap string (list Article)) :=
  let articles := parse <$> filter (λ r, recent_cs r = true) results in
  let articles_dict := by_title articles in
  most_recent ← most_recent_file downloads;
  let old_articles_dict :=
    by_title (default [] (downloads !! most_recent)) in
  let new_articles :=
    (filter (λ kv, PyDict.get kv.1 old_articles_dict = None)
            articles_dict).*2 in
  match new_articles with
  | [] => Some downloads
  | _ => Some (<[filename := new_articles]> downloads)
  end.
End main.

End Download.

(** ** Annotating with a language model: [llm_annotate.py] *)

Module LlmAnnotate.
Import Train.

Inductive Exn :=
  | FileNotFoundError
  | ValueError.

(** [_to_categories] *)
Definition _to_categories (label : string) (labels : list string)
    : gmap string Z :=
  let categories : gmap string Z :=
    list_to_map ((λ lab, (lab, 0%Z)) <$> labels) in
  if decide (is_Some (categories !! label)) then <[label := 1%Z]> categories
  else categories.

Section run.
(** [_choose_label(text, model=gen_model, labels=LABELS)] *)
Variable choose_label : string → string.
Variable LABELS : list string.

(** [ex.get("text") or ex.get("abstract") or
     " ".join(ex.get("sentences", []))]; no record of
    [get_download_stream] has the key [abstract]. *)
Definition example_text (ex : Clean.DownloadEx) : string :=
  if decide (Clean.dl_text ex = "") then
    String.concat " " (default [] (Clean.dl_sentences ex))
  else Clean.dl_text ex.

(** [for ex in stream], [examples] being the list built so far. *)
Fixpoint annotate (limit : Z) (stream : list Clean.DownloadEx)
    (examples : list AnnotLine) : list AnnotLine :=
  match stream with
  | [] => examples
  | ex :: rest =>
      let text := example_text ex in
      if decide (text = "") then annotate limit rest examples
      else
        let label := choose_label text in
        let categories := _to_categories label LABELS in
        let examples' :=
          examples ++ [{| line_text := text;
                          line_categories := Some categories;
                          line_cats := None |}] in
        if decide (limit ≤ Z.of_nat (length examples'))%Z then examples'
        else annotate limit rest examples'
  end.

(** [ex["categories"].get(label) == 1] *)
Definition has_label (label : string) (ex : AnnotLine) : Prop :=
  (line_categories ex ≫= λ c, c !! label) = Some 1%Z.

Global Instance has_label_dec label ex : Decision (has_label label ex).
Proof. unfold has_label. apply _. Defined.

(** [for label in LABELS: ... srsly.write_jsonl(path, subset)], the
    annotation folder mapping a label to the lines of its file. *)
Definition write_subsets (examples : list AnnotLine)
    (annot : gmap string (list AnnotLine)) : gmap string (list AnnotLine) :=
  foldl (λ fs label, <[label := filter (has_label label) examples]> fs)
        annot LABELS.

(** [run]: [env] is [os.environ], [path_exists] tells which paths
    exist, [config_project_id] is [CONFIG.project_id] when [CONFIG] has
    that attribute, [stream] is the clean download stream. *)
Definition run (env : gmap string string) (path_exists : string → bool)
    (config_project_id : option string) (level : string) (limit : Z)
    (stream : list Article) (annot : gmap string (list AnnotLine))
    : Exn + gmap string (list AnnotLine) :=
  let env :=
    if decide (is_Some (env !! "GOOGLE_APPLICATION_CREDENTIALS")) then env
    else <["GOOGLE_APPLICATION_CREDENTIALS" :=
           "/Users/antonellaschiavoni/Projects/arxiv-frontpage/google_cred.json"]> env in
  let env :=
    if decide (is_Some (env !! "GCP_PROJECT")) then env
    else <["GCP_PROJECT" := "gemini-423213"]> env in
  let creds_path :=
    default "google_cred.json" (env !! "GOOGLE_APPLICATION_CREDENTIALS") in
  if negb (path_exists creds_path) then inl FileNotFoundError
  else
    let project : option string :=
      match config_project_id with
      | Some from_config =>
          match env !! "GCP_PROJECT" with
          | Some p => if decide (p = "") then Some from_config else Some p
          | None => Some from_config
          end
      | None => None
      end in
    if decide (project = None ∨ project = Some "") then inl ValueError
    else
      let examples :=
        annotate limit (Clean.get_download_stream level stream) [] in
      inr (write_subsets examples annot).
End run.

End LlmAnnotate.

(** * The vocabulary of the statements *)

(** ** Section assignment *)

Module SiteSpec.
Import Site.

(** The running counter of a label, [0] for an untracked one. *)
Definition cnt (tr : gmap string nat) (l : string) : nat := default 0 (tr !! l).

(** Some per-sentence mapping of [PS] gives [l] a probability strictly
    above the threshold of [l]. *)
Definition qualifies (THRESHOLDS : gmap string Q) (PS : list Preds)
    (l : string) : Prop :=
  ∃ ps p t, ps ∈ PS ∧ (l, p) ∈ ps ∧ THRESHOLDS !! l = Some t ∧ (t < p)%Q.

(** How the state after some item steps over the mappings [PS] relates to
    the state before them. *)
Definition step_rel (THRESHOLDS : gmap string Q) (PS : list Preds)
    (v v' : Visit) : Prop :=
  base v'.1.2 = base v.1.2 ∧ preds v'.1.2 = preds v.1.2 ∧
  dom v'.1.1 = dom v.1.1 ∧
  (∀ l, carries l v.1.2 → carries l v'.1.2) ∧
  (∀ l, carries l v'.1.2 →
        carries l v.1.2 ∨ (l ∈ dom v.1.1 ∧ qualifies THRESHOLDS PS l)) ∧
  (∀ l, carries l v'.1.2 → ¬ carries l v.1.2 → cnt v.1.1 l < cnt v'.1.1 l) ∧
  (∀ l, cnt v.1.1 l ≤ cnt v'.1.1 l) ∧
  (∀ l, cnt v.1.1 l ≤ limit → cnt v'.1.1 l ≤ limit).

(** The number of records of a list that carry [l]. *)
Definition carrying (l : string) (xs : list Example) : nat :=
  length (filter (carries l) xs).

(** How a record of the store relates to the record of the input stream
    it was pulled as, the tracker having the keys [dom0]. *)
Definition visited (THRESHOLDS : gmap string Q) (dom0 : gset string)
    (ex ex' : Example) : Prop :=
  base ex' = base ex ∧ preds ex' = preds ex ∧
  ∀ l, carries l ex' →
       carries l ex ∨ (l ∈ dom0 ∧ qualifies THRESHOLDS (preds ex) l).

(** The tracker has exactly the labels as keys. *)
Definition tracks (LABELS : list string) (tr : gmap string nat) : Prop :=
  ∀ l, l ∈ dom tr ↔ l ∈ LABELS.

(** The mapping [ps] without the entries whose name is not a label. *)
Definition only_labels (LABELS : list string) (ps : Preds) : Preds :=
  filter (λ it, it.1 ∈ LABELS) ps.

(** A record whose prediction mappings are cut down to the labels. *)
Definition strip (LABELS : list string) (ex : Example) : Example :=
  {| base := base ex; preds := only_labels LABELS <$> preds ex;
     sections := sections ex |}.

Definition strip_visit (LABELS : list string) (v : Visit) : Visit :=
  (v.1.1, strip LABELS v.1.2, v.2).

Definition strip_run (LABELS : list string) (r : Run) : Run :=
  (r.1.1, strip LABELS <$> r.1.2, r.2).

End SiteSpec.

(** ** Orders on dates *)

(** [created b <= created a] as Python compares the two strings. *)
Definition not_older {A} (date : A → string) (a b : A) : Prop :=
  String.leb (date b) (date a) = true.

Definition ascending {A} (key : A → string) (a b : A) : Prop :=
  String.leb (key a) (key b) = true.

(** Newest first: no record is followed by a more recent one. *)
Definition newest_first (stream : list Article) : Prop :=
  StronglySorted (not_older created) stream.

(** ** Grouping *)

Section grouping.
Context {A B K : Type} `{EqDecision K}.
Variable split : A → option (K * B).

(** The stripped items of [s] whose key is [k], in stream order. *)
Definition members (k : K) (s : list A) : list B :=
  omap (λ x, kb ← split x; if decide (kb.1 = k) then Some kb.2 else None) s.

(** The members of the first group with key [k], if any. *)
Fixpoint group_of (k : K) (groups : list (K * list B)) : list B :=
  match groups with
  | [] => []
  | (k', bs) :: groups' => if decide (k = k') then bs else group_of k groups'
  end.

Definition well_grouped (groups : list (K * list B)) : Prop :=
  NoDup groups.*1 ∧ Forall (λ g, g.2 ≠ []) groups.
End grouping.

(** ** The archive *)

(** The day a record is filed under. *)
Definition day_of (a : Article) : string := Utils.str_take 10 (created a).

(** The content last written to [path] by the groups, if any. *)
Definition written (jsonl : list Article → string)
    (groups : list (string * list Article)) (path : string) : option string :=
  foldl (λ acc g, if decide (g.1 +:+ ".jsonl" = path)
                  then Some (jsonl (Archive.set_created g.1 <$> g.2)) else acc)
        None groups.

(** ** The accumulator *)

Module TrainSpec.
Import Train.

(** [_accumulate_train_stream] after [_sentence_data_to_train_format]. *)
Definition accumulate (stream : list Annotation)
    : option (list TrainingExample) :=
  _accumulate_train_stream (_sentence_data_to_train_format stream).

(** The label-to-outcome pairs observed for the text [t], in the order in
    which the records are processed; records without an outcome give
    none. *)
Definition outcome_pairs (t : string) (stream : list Annotation)
    : list (string * Z) :=
  omap (λ ex, if decide (text ex = t)
              then (λ o, (label ex, o)) <$> outcome_of (answer ex)
              else None) stream.

(** The outcome of the last pair for the label [l]. *)
Definition last_outcome (l : string) (pairs : list (string * Z)) : option Z :=
  foldl (λ acc p, if decide (p.1 = l) then Some p.2 else acc) None pairs.

(** What is claimed of the accumulated set [out] of [stream]: one
    example per distinct text of a record with an outcome, no other
    example; [categories] maps a label to the last outcome observed for
    this text and label, and has no other entries. *)
Definition accumulated (stream : list Annotation)
    (out : list TrainingExample) : Prop :=
  NoDup (tx_text <$> out) ∧
  (∀ v, v ∈ tx_text <$> out ↔
        ∃ ex, ex ∈ stream ∧ is_Some (outcome_of (answer ex)) ∧
              v = VStr (text ex)) ∧
  (∀ te t, te ∈ out → tx_text te = VStr t →
     ∀ l, PyDict.get l (categories te)
          = VInt <$> last_outcome l (outcome_pairs t stream)) ∧
  (∀ te k v, te ∈ out → (k, v) ∈ categories te →
     ∃ ex o, ex ∈ stream ∧ tx_text te = VStr (text ex) ∧ label ex = k ∧
             outcome_of (answer ex) = Some o ∧ v = VInt o).

(** No record with an outcome is labelled with the name of the row's
    own [text] key. *)
Definition labels_apart (stream : list Annotation) : Prop :=
  ∀ ex, ex ∈ stream → is_Some (outcome_of (answer ex)) → label ex ≠ "text".

Definition pair_row (p : string * Z) : Row := [(p.1, VInt p.2)].

End TrainSpec.

(** ** Sample inputs *)

Module Samples.
Import Site.

Definition art (d a : string) (ss : list string) : Article :=
  mkArticle d "t" a ss "u".

Definition thr : gmap string Q := {[ "cs.LG" := 0.5%Q ]}.

Definition model1 (ss : list string) : list Preds :=
  (λ s, if String.eqb s "good" then [("cs.LG", 0.9%Q); ("other", 1%Q)]
        else if String.eqb s "edge" then [("cs.LG", 0.5%Q)]
        else [("cs.LG", 0.4%Q)]) <$> ss.

(** Two records, the first qualifying twice for ["cs.LG"]. *)
Definition clean2 : list Article :=
  [art "2024-01-02" "A" ["good"; "edge"; "good"]; art "2024-01-01" "B" ["good"]].

Definition scored (a : Article) : Example :=
  {| base := a; preds := model1 (sentences a); sections := Some ["cs.LG"] |}.

(** One record whose fifty sentences fill the quota, and a record
    behind it. *)
Definition pre50 : list Example :=
  add_predictions model1 [art "2024-01-03" "C" (replicate 50 "good")].

Definition post1 : list Example :=
  add_predictions model1 [art "2024-01-02" "A" ["good"]].

(** Three records out of date order. *)
Definition clean3 : list Article :=
  [art "2024-01-01" "A" ["good"]; art "2024-01-03" "B" ["good"];
   art "2024-01-02" "C" ["good"]].

Definition cfg1 : list Assembler.SectionConfig :=
  [Assembler.mkSectionConfig "cs.LG" 0.5].

Definition show1 (p : Q) : string := "p".

(** Two download files; the glob lists the older one first. *)
Definition downloads2 : list (list Article) :=
  [[art "2024-01-01 10:00:00" "B" []];
   [art "2024-01-02 09:00:00" "A" []; art "2024-01-02 08:00:00" "B" []]].

Definition jsonl1 (l : list Article) : string :=
  String.concat ";" ((λ a, created a +:+ "," +:+ abstract a) <$> l).

Definition annotations4 : list Train.Annotation :=
  [Train.mkAnnotation "s1" "a" "accept"; Train.mkAnnotation "s2" "a" "ignore";
   Train.mkAnnotation "s1" "b" "reject"; Train.mkAnnotation "s1" "a" "reject"].

End Samples.

(** ** More vocabulary for section assignment *)

Module SiteSpec2.
Import Site.

(** The sum of the counters of a tracker. *)
Definition total (tr : gmap string nat) : nat :=
  map_fold (λ _ v acc, v + acc) 0 tr.

(** The record has a [sections] key holding a non-empty list without
    repeats. *)
Definition well_sectioned (ex : Example) : Prop :=
  ∃ s, sections ex = Some s ∧ s ≠ [] ∧ NoDup s.

(** How the yields made over some item steps relate the state after
    them to the state before. *)
Definition yield_rel (v v' : Visit) : Prop :=
  v.2 ≤ v'.2 ∧
  total v'.1.1 + v.2 = total v.1.1 + v'.2 ∧
  (v'.2 = v.2 → v' = v) ∧
  (v.2 < v'.2 → well_sectioned v'.1.2).

End SiteSpec2.

(** ** More vocabulary for the content assembler *)

Module AssemblerSpec.
Import Assembler.

(** The content of the bucket stored under [k], empty when there is
    none. *)
Definition bucket_content (k : string) (buckets : list (string * SectionOut))
    : list Entry :=
  from_option content [] (PyDict.get k buckets).

(** The entries that placing [it] adds to the bucket [k], one for each
    occurrence of [k] in [secs]. *)
Definition entries_for (THRESHOLDS : gmap string Q) (show_proba : Q → string)
    (it : Example) (k : string) (secs : list string) : list Entry :=
  omap (λ section,
          if decide (section = k)
          then (λ h, {| item := it; html := h; entry_categories := [] |})
                 <$> render_html THRESHOLDS show_proba it section
          else None) secs.

(** The keys are distinct and each bucket sits under its own label. *)
Definition buckets_ok (buckets : list (string * SectionOut)) : Prop :=
  NoDup buckets.*1 ∧
  ∀ k s, (k, s) ∈ buckets → sec_label (config s) = k.

End AssemblerSpec.

(** ** Vocabulary for the annotation by a language model *)

Module LlmSpec.
Import Train LlmAnnotate.

(** The example [run] makes of a text. *)
Definition annotated (choose_label : string → string) (LABELS : list string)
    (text : string) : AnnotLine :=
  {| line_text := text;
     line_categories := Some (_to_categories (choose_label text) LABELS);
     line_cats := None |}.

(** The non-empty texts of a stream, in stream order. *)
Definition texts_of (stream : list Clean.DownloadEx) : list string :=
  filter (λ t, t ≠ "") (example_text <$> stream).

(** The path [run] looks for the credentials at. *)
Definition creds_path (env : gmap string string) : string :=
  default "/Users/antonellaschiavoni/Projects/arxiv-frontpage/google_cred.json"
          (env !! "GOOGLE_APPLICATION_CREDENTIALS").

End LlmSpec.

(** ** Vocabulary for the download *)

Module DownloadSpec.
Import Download.

(** The articles [main] keeps of the results: recent ones in a computer
    science category, parsed. *)
Definition fetched (nlp : string → list string) (age_in_days : Result → Q)
    (results : list Result) : list Article :=
  parse nlp <$> filter (λ r, recent_cs age_in_days r = true) results.

(** [a] is the last fetched article of its title, and no article of
    [old] has that title. *)
Definition is_new (fetched old : list Article) (a : Article) : Prop :=
  last (filter (λ b, title b = title a) fetched) = Some a ∧
  title a ∉ title <$> old.

End DownloadSpec.

(** ** More sample inputs *)

Module Samples2.
Import Samples.

Definition pre1 : list Example :=
  Site.add_predictions model1 [art "2024-01-02" "A" ["good"; "edge"; "good"]].

Definition post2 : list Example :=
  Site.add_predictions model1 [art "2024-01-01" "B" ["good"]].

(** Two annotation files, one in each format. *)
Definition annot2 : gmap string (list Train.AnnotLine) :=
  {[ "cs.LG" := [Train.mkAnnotLine "t" (Some {[ "cs.LG" := 1%Z ]}) None];
     "cs.CL" := [Train.mkAnnotLine "u" None (Some {[ "cs.CL" := 1%Z ]})] ]}.

(** A search result that is new, one that the folder has, and one
    outside computer science. *)
Definition results3 : list Download.Result :=
  [Download.mkResult "2024-01-03 10:00:00+00:00" "T1" "one" "id1" "cs.LG";
   Download.mkResult "2024-01-02 09:00:00+00:00" "T0" "old" "id0" "cs.CL";
   Download.mkResult "2024-01-03 11:00:00+00:00" "T2" "two" "id2" "math.CO"].

Definition nlp1 (s : string) : list string := [s].

Definition age1 (r : Download.Result) : Q := 1.

Definition downloads1 : gmap string (list Article) :=
  {[ "2024-01-02-10h.jsonl" :=
       [mkArticle "2024-01-02 09:00:00" "T0" "old" ["old"] "id0"] ]}.

(** Two download files of different days, and a reader for the two
    partitions they give. *)
Definition downloads3 : list (list Article) :=
  [[art "2024-01-01 10:00:00" "C" []]; [art "2024-01-02 09:00:00" "A" []]].

Definition read1 (s : string) : list Article :=
  if String.eqb s "2024-01-02,A" then [art "2024-01-02" "A" []]
  else if String.eqb s "2024-01-01,C" then [art "2024-01-01" "C" []]
  else [].

Definition choose1 (text : string) : string :=
  if String.eqb text "A" then "cs.LG" else "none".

Definition env1 : gmap string string := {[ "GCP_PROJECT" := "p" ]}.

End Samples2.

(** * Properties *)

(** ** Comparisons *)

Lemma Qgtb_spec p t : Qgtb p t = true ↔ (t < p)%Q.
Proof.
  unfold Qgtb. rewrite negb_true_iff, <- not_true_iff_false, Qle_bool_iff.
  split; [apply Qnot_le_lt | apply Qlt_not_le].
Qed.

Lemma Qgtb_irrefl p t : (p == t)%Q → Qgtb p t = false.
Proof.
  intros E. apply not_true_iff_false. rewrite Qgtb_spec, E.
  apply Qlt_irrefl.
Qed.

(** ** Section assignment *)

Section site_facts.
Import Site SiteSpec.
Variable THRESHOLDS : gmap string Q.

Lemma carries_list_set l ex secs name :
  carries l (with_sections ex (list_set (secs ++ [name]))) ↔ l ∈ secs ∨ l = name.
Proof.
  unfold carries, list_set; simpl.
  rewrite elem_of_elements, elem_of_list_to_set, elem_of_app, list_elem_of_singleton.
  done.
Qed.

Lemma carries_default l ex : carries l ex ↔ l ∈ default [] (sections ex).
Proof.
  unfold carries. destruct (sections ex); simpl; [done |].
  split; [done | by intros ?%elem_of_nil].
Qed.

(** What one visit of an item can do: nothing, or take a quota slot. *)
Lemma item_step_inv tr ex y name proba v' :
  item_step THRESHOLDS (tr, ex, y) (name, proba) = Some v' →
  v' = (tr, ex, y) ∨
  ∃ n t, tr !! name = Some n ∧ THRESHOLDS !! name = Some t ∧
         (t < proba)%Q ∧ n < limit ∧
         v' = (<[name := S n]> tr,
               with_sections ex (list_set (default [] (sections ex) ++ [name])),
               S y).
Proof.
  unfold item_step. destruct (tr !! name) as [n|] eqn:Hn; [| naive_solver].
  destruct (THRESHOLDS !! name) as [t|] eqn:Ht; simpl; [| done].
  destruct (Qgtb proba t) eqn:Hq; simpl; [| naive_solver].
  case_bool_decide; [| naive_solver].
  intros [= <-]. right. exists n, t. by rewrite <- Qgtb_spec.
Qed.

(** A relation that every item step respects holds across the two inner
    loops. *)
Section loops.
Variable R : Visit → Visit → Prop.
Context `{!Reflexive R, !Transitive R}.

Lemma items_loop_rel items v v' :
  (∀ u it u', it ∈ items → item_step THRESHOLDS u it = Some u' → R u u') →
  items_loop THRESHOLDS items v = Some v' → R v v'.
Proof.
  revert v. induction items as [|it items IH]; intros v Hstep; simpl.
  - by intros [= <-].
  - destruct (item_step THRESHOLDS v it) as [u|] eqn:Hu; simpl; [| done].
    intros Hl. transitivity u.
    + apply (Hstep v it u); [by left | done].
    + apply IH; [| done]. intros w it' w' Hin Hst.
      by apply (Hstep w it' w'); [right |].
Qed.

Lemma preds_loop_rel ps v v' :
  (∀ u p it u', p ∈ ps → it ∈ p →
     item_step THRESHOLDS u it = Some u' → R u u') →
  preds_loop THRESHOLDS ps v = Some v' → R v v'.
Proof.
  revert v. induction ps as [|p ps IH]; intros v Hstep; simpl.
  - by intros [= <-].
  - destruct (items_loop THRESHOLDS p v) as [u|] eqn:Hu; simpl; [| done].
    intros Hl. transitivity u.
    + apply (items_loop_rel p v u); [| done]. intros w it w' Hin Hst. by apply (Hstep w p it w'); [left | |].
    + apply IH; [| done]. intros w q it w' Hq Hin Hst.
      by apply (Hstep w q it w'); [right | |].
Qed.
End loops.

(** The case analysis of [stream_loop], as an induction principle. *)
Lemma stream_loop_rect' (P : nat → list Example → gmap string nat → Run → Prop) :
  (∀ i tr, P i [] tr (tr, [], [])) →
  (∀ i ex rest tr tr' ex' y,
     visit THRESHOLDS tr ex = Some (tr', ex', y) → all_full tr' = true →
     P i (ex :: rest) tr (tr', [ex'], replicate y i)) →
  (∀ i ex rest tr tr' ex' y tr'' store refs,
     visit THRESHOLDS tr ex = Some (tr', ex', y) → all_full tr' = false →
     stream_loop THRESHOLDS (S i) rest tr' = Some (tr'', store, refs) →
     P (S i) rest tr' (tr'', store, refs) →
     P i (ex :: rest) tr (tr'', ex' :: store, replicate y i ++ refs)) →
  ∀ s i tr r, stream_loop THRESHOLDS i s tr = Some r → P i s tr r.
Proof.
  intros Hnil Hbrk Hgo. induction s as [|ex rest IH]; intros i tr r; simpl.
  - intros [= <-]. apply Hnil.
  - destruct (visit THRESHOLDS tr ex) as [[[tr' ex'] y]|] eqn:Hv; simpl; [| done].
    destruct (all_full tr') eqn:Hf.
    + intros [= <-]. by apply Hbrk.
    + destruct (stream_loop THRESHOLDS (S i) rest tr') as [[[tr'' store] refs]|] eqn:Hr;
        simpl; [| done].
      intros [= <-]. eapply Hgo; eauto.
Qed.

Global Instance step_rel_refl PS : Reflexive (step_rel THRESHOLDS PS).
Proof. intros [[tr ex] y]. unfold step_rel; simpl. naive_solver. Qed.

Global Instance step_rel_trans PS : Transitive (step_rel THRESHOLDS PS).
Proof.
  intros [[t1 e1] y1] [[t2 e2] y2] [[t3 e3] y3]; unfold step_rel; simpl.
  intros (Hb & Hp & Hd & Hm & Hq & Hg & Hc & Hl)
         (Hb' & Hp' & Hd' & Hm' & Hq' & Hg' & Hc' & Hl').
  repeat split; try congruence; auto.
  - intros l H3. destruct (Hq' l H3) as [H2 | [Hin Hql]]; [by apply Hq |].
    right. by rewrite <- Hd.
  - intros l H3 H1. destruct (decide (carries l e2)) as [H2|H2].
    + specialize (Hg l H2 H1). specialize (Hc' l). lia.
    + specialize (Hg' l H3 H2). specialize (Hc l). lia.
  - intros l. specialize (Hc l). specialize (Hc' l). lia.
Qed.

Lemma cnt_insert tr name n l :
  cnt (<[name := n]> tr) l = if decide (name = l) then n else cnt tr l.
Proof. unfold cnt. rewrite lookup_insert. by case_decide. Qed.

Lemma item_step_rel PS u p it u' :
  p ∈ PS → it ∈ p → item_step THRESHOLDS u it = Some u' → step_rel THRESHOLDS PS u u'.
Proof.
  destruct u as [[tr ex] y], it as [name proba]. intros HPS Hp Hs.
  apply item_step_inv in Hs as [-> | (n & t & Hn & Ht & Hlt & Hlim & ->)];
    [reflexivity |].
  assert (Hc : cnt tr name = n) by (unfold cnt; by rewrite Hn).
  unfold step_rel; simpl. repeat split.
  - apply dom_insert_lookup_L. by exists n.
  - intros l. rewrite carries_list_set, <- carries_default. tauto.
  - intros l. rewrite carries_list_set, <- carries_default.
    intros [? | ->]; [by left | right]. split.
    + apply elem_of_dom. by exists n.
    + by exists p, proba, t.
  - intros l. rewrite carries_list_set, <- carries_default.
    intros [? | ->] ?; [done |]. rewrite cnt_insert, decide_True by done. lia.
  - intros l. rewrite cnt_insert. case_decide; subst; lia.
  - intros l. rewrite cnt_insert. case_decide; subst; lia.
Qed.

Lemma visit_rel tr ex tr' ex' y :
  visit THRESHOLDS tr ex = Some (tr', ex', y) →
  step_rel THRESHOLDS (preds ex) (tr, ex, 0) (tr', ex', y).
Proof.
  unfold visit. apply preds_loop_rel; [apply _ | apply _ |].
  intros u p it u'. apply item_step_rel.
Qed.

Lemma carrying_cons l x xs :
  carrying l (x :: xs) = (if decide (carries l x) then 1 else 0) + carrying l xs.
Proof. unfold carrying. rewrite filter_cons. by case_decide. Qed.

(** What a whole run of the outer loop guarantees. *)
Lemma stream_loop_facts s i tr tr' store refs :
  stream_loop THRESHOLDS i s tr = Some (tr', store, refs) →
  dom tr' = dom tr ∧
  Forall2 (visited THRESHOLDS (dom tr)) (take (length store) s) store ∧
  Forall (λ r, i ≤ r < i + length store) refs ∧
  (∀ l, carrying l store + cnt tr l ≤ cnt tr' l + carrying l s) ∧
  (∀ l, cnt tr l ≤ limit → cnt tr' l ≤ limit).
Proof.
  intros H.
  refine (stream_loop_rect'
    (λ i s tr r,
       dom r.1.1 = dom tr ∧
       Forall2 (visited THRESHOLDS (dom tr)) (take (length r.1.2) s) r.1.2 ∧
       Forall (λ x, i ≤ x < i + length r.1.2) r.2 ∧
       (∀ l, carrying l r.1.2 + cnt tr l ≤ cnt r.1.1 l + carrying l s) ∧
       (∀ l, cnt tr l ≤ limit → cnt r.1.1 l ≤ limit)) _ _ _ s i tr _ H);
    clear; simpl.
  - intros i tr. repeat split; auto. intros l. unfold carrying; simpl. lia.
  - intros i ex rest tr tr' ex' y Hv _.
    apply visit_rel in Hv. destruct Hv as (Hb & Hp & Hd & Hm & Hq & Hg & Hc & Hl);
      simpl in *.
    split_and!; [done | | | | done].
    + rewrite take_0. constructor; [by repeat split | constructor].
    + apply Forall_forall. intros r Hr%elem_of_replicate. lia.
    + intros l. rewrite !carrying_cons. specialize (Hg l). specialize (Hc l).
      unfold carrying at 1; simpl.
      repeat case_decide; try lia. specialize (Hg ltac:(done) ltac:(done)). lia.
  - intros i ex rest tr tr' ex' y tr'' store refs Hv _ _
      (IHd & IHf & IHr & IHc & IHl).
    apply visit_rel in Hv. destruct Hv as (Hb & Hp & Hd & Hm & Hq & Hg & Hc & Hl);
      simpl in *.
    repeat split.
    + congruence.
    + constructor; [by repeat split |]. rewrite <- Hd. done.
    + apply Forall_app. split.
      * apply Forall_forall. intros r Hr%elem_of_replicate. lia.
      * eapply Forall_impl; [exact IHr |]. simpl. intros; lia.
    + intros l. rewrite !carrying_cons. specialize (IHc l).
      specialize (Hg l). specialize (Hc l).
      repeat case_decide; try lia. specialize (Hg ltac:(done) ltac:(done)). lia.
    + auto.
Qed.

End site_facts.

Section site_results.
Import Site SiteSpec.

Lemma init_tracker_lookup LABELS l :
  init_tracker LABELS !! l = if decide (l ∈ LABELS) then Some 0 else None.
Proof.
  unfold init_tracker. induction LABELS as [|a L IH].
  - rewrite fmap_nil, list_to_map_nil, lookup_empty.
    case_decide as H; [by apply elem_of_nil in H | done].
  - rewrite fmap_cons, list_to_map_cons, lookup_insert.
    destruct (decide (a = l)) as [->|Ha].
    + rewrite decide_True; [done | by left].
    + rewrite IH. destruct (decide (l ∈ L)) as [HL|HL].
      * rewrite decide_True; [done | by right].
      * rewrite decide_False; [done |].
        intros [?|?]%elem_of_cons; congruence.
Qed.

Lemma init_tracker_dom LABELS l : l ∈ dom (init_tracker LABELS) ↔ l ∈ LABELS.
Proof.
  rewrite elem_of_dom, init_tracker_lookup.
  case_decide; split; try done; by intros [? ?].
Qed.

Lemma init_tracker_cnt LABELS l : cnt (init_tracker LABELS) l = 0.
Proof. unfold cnt. rewrite init_tracker_lookup. by case_decide. Qed.

(** Distinct positions of a store whose records satisfy [P] are at most
    as many as the records satisfying [P]. *)
Lemma distinct_positions_bound {A} (P : A → Prop) `{!∀ x, Decision (P x)}
    (store : list A) (ids : list nat) :
  NoDup ids → (∀ i, i ∈ ids → ∃ x, store !! i = Some x ∧ P x) →
  length ids ≤ length (filter P store).
Proof.
  revert ids. induction store as [|x xs IH]; intros ids Hnd Hall.
  - destruct ids as [|i ids]; [done |].
    destruct (Hall i) as (? & Hx & _); [by left | done].
  - assert (Hshift : ∀ js, NoDup js → 0 ∉ js →
              (∀ i, i ∈ js → ∃ x', (x :: xs) !! i = Some x' ∧ P x') →
              length js ≤ length (filter P xs)).
    { intros js Hjs H0 Hj. rewrite <- (length_fmap Nat.pred js). apply IH.
      - apply NoDup_fmap_2_strong; [| done].
        intros a b Ha Hb. destruct a, b; simpl; try done; congruence.
      - intros j [i [-> Hi]]%list_elem_of_fmap.
        destruct i as [|i]; [done |]. simpl. by apply (Hj (S i)). }
    destruct (decide (0 ∈ ids)) as [H0|H0].
    + apply elem_of_Permutation in H0 as [js Hjs].
      rewrite Hjs in Hnd. apply NoDup_cons in Hnd as [H0 Hnd].
      destruct (Hall 0) as (x' & [= <-] & HP); [rewrite Hjs; by left |].
      rewrite filter_cons_True by done. rewrite Hjs. simpl.
      apply le_n_S, Hshift; [done | done |].
      intros i Hi. apply Hall. rewrite Hjs. by right.
    + etransitivity; [by apply Hshift |].
      rewrite filter_cons. case_decide; simpl; lia.
Qed.

Lemma elem_of_collect (r : Run) ex :
  ex ∈ collect r ↔ ∃ i, i ∈ r.2 ∧ r.1.2 !! i = Some ex.
Proof.
  destruct r as [[tr store] refs]. unfold collect. simpl.
  rewrite list_elem_of_omap. done.
Qed.

Lemma add_predictions_fresh model stream l :
  carrying l (add_predictions model stream) = 0.
Proof.
  unfold carrying, add_predictions. induction stream as [|a s IH]; [done |].
  rewrite fmap_cons, filter_cons_False; [done |]. unfold carries. simpl. tauto.
Qed.

(** What [get_site_stream] guarantees about each record of its store. *)
Lemma get_site_stream_run_facts LABELS THRESHOLDS model clean tr store refs :
  get_site_stream_run LABELS THRESHOLDS model clean = Some (tr, store, refs) →
  (∀ l, l ∈ dom tr ↔ l ∈ LABELS) ∧
  (∀ i ex, store !! i = Some ex →
     ∃ a, take 1000 clean !! i = Some a ∧ base ex = a ∧
          preds ex = model (sentences a) ∧
          ∀ l, carries l ex → l ∈ LABELS ∧ qualifies THRESHOLDS (preds ex) l) ∧
  Forall (λ r, r < length store) refs ∧
  (∀ l, carrying l store ≤ cnt tr l ∧ cnt tr l ≤ limit).
Proof.
  unfold get_site_stream_run, upper_limit_run. intros H.
  apply stream_loop_facts in H as (Hd & Hf & Hr & Hc & Hl). repeat split.
  - rewrite Hd. apply init_tracker_dom.
  - rewrite Hd. apply init_tracker_dom.
  - intros i ex Hi.
    destruct (Forall2_lookup_r _ _ _ _ _ Hf Hi) as (ex0 & Hi0 & Hb & Hp & Hq).
    apply lookup_take_Some in Hi0 as [Hi0 _].
    unfold add_predictions in Hi0. rewrite list_lookup_fmap in Hi0.
    destruct (take 1000 clean !! i) as [a|] eqn:Ha; [| done].
    simpl in Hi0. injection Hi0 as <-. simpl in *.
    exists a. repeat split; auto.
    + destruct (Hq l) as [[] | [Hin _]]; [done |]. by apply init_tracker_dom.
    + destruct (Hq l) as [[] | [_ Hql]]; [done |]. by rewrite Hp.
  - eapply Forall_impl; [exact Hr |]. simpl. intros r. lia.
  - specialize (Hc l). rewrite add_predictions_fresh, init_tracker_cnt in Hc. lia.
  - apply Hl. rewrite init_tracker_cnt. lia.
Qed.

End site_results.

Section site_claims.
Import Site SiteSpec.

(** [upper_limit] raises only on a tracked label without a threshold. *)
Lemma stream_loop_total THRESHOLDS s i tr :
  (∀ l, l ∈ dom tr → is_Some (THRESHOLDS !! l)) →
  is_Some (stream_loop THRESHOLDS i s tr).
Proof.
  assert (Hitem : ∀ it v, (∀ l, l ∈ dom v.1.1 → is_Some (THRESHOLDS !! l)) →
            ∃ v', item_step THRESHOLDS v it = Some v' ∧ dom v'.1.1 = dom v.1.1).
  { intros [name proba] [[tr0 ex] y] Hth; simpl in *.
    destruct (item_step THRESHOLDS (tr0, ex, y) (name, proba)) as [v'|] eqn:Hs.
    - exists v'. split; [done |].
      by apply (item_step_rel THRESHOLDS [[(name, proba)]] _ [(name, proba)])
        in Hs as (_ & _ & Hd & _); [| left | left].
    - exfalso. unfold item_step in Hs.
      destruct (tr0 !! name) as [n|] eqn:Hn; [| done].
      destruct (Hth name) as [t Ht]; [apply elem_of_dom; by eexists |].
      rewrite Ht in Hs. simpl in Hs. by destruct (_ && _). }
  assert (Hitems : ∀ p v, (∀ l, l ∈ dom v.1.1 → is_Some (THRESHOLDS !! l)) →
            ∃ v', items_loop THRESHOLDS p v = Some v' ∧ dom v'.1.1 = dom v.1.1).
  { induction p as [|it p IH]; intros v Hth; simpl; [by eexists |].
    destruct (Hitem it v Hth) as (u & -> & Hu). simpl.
    destruct (IH u) as (v' & -> & Hv'); [by rewrite Hu |].
    exists v'. split; [done | congruence]. }
  assert (Hpreds : ∀ ps v, (∀ l, l ∈ dom v.1.1 → is_Some (THRESHOLDS !! l)) →
            ∃ v', preds_loop THRESHOLDS ps v = Some v' ∧ dom v'.1.1 = dom v.1.1).
  { induction ps as [|p ps IH]; intros v Hth; simpl; [by eexists |].
    destruct (Hitems p v Hth) as (u & -> & Hu). simpl.
    destruct (IH u) as (v' & -> & Hv'); [by rewrite Hu |].
    exists v'. split; [done | congruence]. }
  revert i tr. induction s as [|ex rest IH]; intros i tr Hth; simpl; [done |].
  unfold visit. destruct (Hpreds (preds ex) (tr, ex, 0) Hth) as ([[tr' ex'] y] & -> & Hd).
  simpl in *. destruct (all_full tr'); [done |].
  destruct (IH (S i) tr') as [[[tr'' store] refs] ->]; [by rewrite Hd | done].
Qed.

Lemma get_site_stream_total LABELS THRESHOLDS model clean :
  (∀ l, l ∈ LABELS → is_Some (THRESHOLDS !! l)) →
  is_Some (get_site_stream LABELS THRESHOLDS model clean).
Proof.
  intros Hth. unfold get_site_stream, get_site_stream_run, upper_limit_run.
  apply fmap_is_Some, stream_loop_total.
  intros l Hl%init_tracker_dom. by apply Hth.
Qed.

(** C1 (quota bound). After section assignment, any collection of
    distinct emitted records that all carry the label [l] in their
    [sections] has at most 50 members, whatever the clean stream and
    the classifier are. *)
Theorem quota_bound LABELS THRESHOLDS model clean tr store refs l ids :
  get_site_stream_run LABELS THRESHOLDS model clean = Some (tr, store, refs) →
  NoDup ids →
  (∀ i, i ∈ ids → i ∈ refs ∧ ∃ ex, store !! i = Some ex ∧ carries l ex) →
  length ids ≤ 50.
Proof.
  intros Hrun Hnd Hids.
  apply get_site_stream_run_facts in Hrun as (_ & _ & _ & Hc).
  destruct (Hc l) as [Hc1 Hc2]. change 50 with limit.
  etransitivity; [| etransitivity; [exact Hc1 | exact Hc2]].
  apply distinct_positions_bound; [done |]. intros i Hi. by apply Hids.
Qed.

(** C2 (threshold gate). A record emitted by section assignment carries
    [l] only if one of its per-sentence prediction mappings gives [l] a
    probability strictly above the threshold configured for [l]; that
    probability is in particular not equal to the threshold. *)
Theorem threshold_gate LABELS THRESHOLDS model clean out ex l :
  get_site_stream LABELS THRESHOLDS model clean = Some out →
  ex ∈ out → carries l ex →
  preds ex = model (sentences (base ex)) ∧
  ∃ ps p t, ps ∈ preds ex ∧ (l, p) ∈ ps ∧ THRESHOLDS !! l = Some t ∧
            (t < p)%Q ∧ ¬ (p == t)%Q.
Proof.
  unfold get_site_stream. intros Hout Hex Hl.
  apply fmap_Some in Hout as ([[tr store] refs] & Hrun & ->).
  apply elem_of_collect in Hex as (i & _ & Hi). simpl in Hi.
  apply get_site_stream_run_facts in Hrun as (_ & Hst & _).
  destruct (Hst i ex Hi) as (a & _ & <- & Hp & Hq).
  split; [done |].
  destruct (Hq l Hl) as (_ & ps & p & t & Hps & Hin & Ht & Hlt).
  exists ps, p, t. split_and!; try done.
  intros E. rewrite E in Hlt. by apply Qlt_irrefl in Hlt.
Qed.

(** C9 (head of the clean stream). Every record emitted by
    [get_site_stream] is one of the first 1000 records of the clean
    download stream. *)
Theorem first_thousand_only LABELS THRESHOLDS model clean out ex :
  get_site_stream LABELS THRESHOLDS model clean = Some out →
  ex ∈ out →
  ∃ i, i < 1000 ∧ clean !! i = Some (base ex).
Proof.
  unfold get_site_stream. intros Hout Hex.
  apply fmap_Some in Hout as ([[tr store] refs] & Hrun & ->).
  apply elem_of_collect in Hex as (i & _ & Hi). simpl in Hi.
  apply get_site_stream_run_facts in Hrun as (_ & Hst & _).
  destruct (Hst i ex Hi) as (a & Ha & <- & _).
  apply lookup_take_Some in Ha as [Ha Hlt]. by exists i.
Qed.

End site_claims.

Section site_more_claims.
Import Site SiteSpec.

Lemma stream_loop_break THRESHOLDS s i tr r post :
  s ≠ [] → stream_loop THRESHOLDS i s tr = Some r → all_full r.1.1 = true →
  stream_loop THRESHOLDS i (s ++ post) tr = Some r.
Proof.
  revert i tr r. induction s as [|ex rest IH]; intros i tr r Hne; [done |]. simpl.
  destruct (visit THRESHOLDS tr ex) as [[[tr' ex'] y]|]; simpl; [| done].
  destruct (all_full tr') eqn:Hf; [done |].
  destruct rest as [|ex2 rest].
  - simpl. intros [= <-]. simpl. congruence.
  - intros Hr Hfull.
    destruct (stream_loop THRESHOLDS (S i) (ex2 :: rest) tr')
      as [[[tr'' store] refs]|] eqn:Hrest; simpl in Hr; [| done].
    injection Hr as <-. simpl in Hfull.
    by rewrite (IH (S i) tr' _ ltac:(done) Hrest Hfull).
Qed.

(** C3 (early termination). When the counters of all configured labels
    stand at the quota after the records [pre], the run over a longer
    stream [pre ++ post] is the run over [pre]: no record of [post] is
    pulled into the store, none is emitted, and the outcome does not
    depend on [post] at all. *)
Theorem early_termination THRESHOLDS LABELS pre post tr store refs :
  pre ≠ [] →
  upper_limit_run THRESHOLDS LABELS pre = Some (tr, store, refs) →
  all_full tr = true →
  upper_limit_run THRESHOLDS LABELS (pre ++ post) = Some (tr, store, refs) ∧
  length store ≤ length pre ∧
  Forall (λ r, r < length pre) refs.
Proof.
  unfold upper_limit_run. intros Hne Hrun Hfull.
  split; [by apply stream_loop_break |].
  apply stream_loop_facts in Hrun as (_ & Hf & Hr & _).
  apply Forall2_length in Hf. rewrite length_take in Hf.
  split; [lia |]. eapply Forall_impl; [exact Hr |]. simpl. intros; lia.
Qed.

Section strip.
Variable THRESHOLDS : gmap string Q.
Variable LABELS : list string.

Lemma item_step_tracks v it v' :
  tracks LABELS v.1.1 → item_step THRESHOLDS v it = Some v' → tracks LABELS v'.1.1.
Proof.
  intros Htr Hs. destruct it as [name proba].
  apply (item_step_rel THRESHOLDS [[(name, proba)]] _ [(name, proba)])
    in Hs as (_ & _ & Hd & _); [| by left | by left].
  unfold tracks. by rewrite Hd.
Qed.

Lemma item_step_untracked v it :
  tracks LABELS v.1.1 → it.1 ∉ LABELS → item_step THRESHOLDS v it = Some v.
Proof.
  destruct v as [[tr ex] y], it as [name proba]. simpl. intros Htr Hn.
  assert (tr !! name = None) as ->; [| done].
  apply not_elem_of_dom. by rewrite (Htr name).
Qed.

Lemma items_loop_only_labels p v :
  tracks LABELS v.1.1 →
  items_loop THRESHOLDS (only_labels LABELS p) v = items_loop THRESHOLDS p v.
Proof.
  revert v. induction p as [|it p IH]; intros v Htr; [done |].
  unfold only_labels in *. rewrite filter_cons. case_decide as Hit; simpl.
  - destruct (item_step THRESHOLDS v it) as [u|] eqn:Hu; simpl; [| done].
    apply IH. by eapply item_step_tracks.
  - rewrite item_step_untracked by done. simpl. by apply IH.
Qed.

Lemma items_loop_tracks p v v' :
  tracks LABELS v.1.1 → items_loop THRESHOLDS p v = Some v' → tracks LABELS v'.1.1.
Proof.
  revert v. induction p as [|it p IH]; intros v Htr; simpl.
  - by intros [= <-].
  - destruct (item_step THRESHOLDS v it) as [u|] eqn:Hu; simpl; [| done].
    apply IH. by eapply item_step_tracks.
Qed.

Lemma preds_loop_only_labels ps v :
  tracks LABELS v.1.1 →
  preds_loop THRESHOLDS (only_labels LABELS <$> ps) v
  = preds_loop THRESHOLDS ps v.
Proof.
  revert v. induction ps as [|p ps IH]; intros v Htr; [done |].
  rewrite fmap_cons. simpl. rewrite items_loop_only_labels by done.
  destruct (items_loop THRESHOLDS p v) as [u|] eqn:Hu; simpl; [| done].
  apply IH. by eapply items_loop_tracks.
Qed.

Lemma item_step_strip v it :
  item_step THRESHOLDS (strip_visit LABELS v) it
  = strip_visit LABELS <$> item_step THRESHOLDS v it.
Proof.
  destruct v as [[tr ex] y], it as [name proba]. unfold strip_visit. simpl.
  destruct (tr !! name); [| done].
  destruct (THRESHOLDS !! name); simpl; [| done].
  by destruct (_ && _).
Qed.

Lemma items_loop_strip p v :
  items_loop THRESHOLDS p (strip_visit LABELS v)
  = strip_visit LABELS <$> items_loop THRESHOLDS p v.
Proof.
  revert v. induction p as [|it p IH]; intros v; [done |].
  cbn [items_loop]. rewrite item_step_strip.
  destruct (item_step THRESHOLDS v it) as [u|]; simpl; [apply IH | done].
Qed.

Lemma preds_loop_strip ps v :
  preds_loop THRESHOLDS ps (strip_visit LABELS v)
  = strip_visit LABELS <$> preds_loop THRESHOLDS ps v.
Proof.
  revert v. induction ps as [|p ps IH]; intros v; [done |].
  cbn [preds_loop]. rewrite items_loop_strip.
  destruct (items_loop THRESHOLDS p v) as [u|]; simpl; [apply IH | done].
Qed.

Lemma visit_strip tr ex :
  tracks LABELS tr →
  visit THRESHOLDS tr (strip LABELS ex)
  = strip_visit LABELS <$> visit THRESHOLDS tr ex.
Proof.
  intros Htr. unfold visit. simpl.
  rewrite <- preds_loop_strip. by apply preds_loop_only_labels.
Qed.

Lemma stream_loop_strip s i tr :
  tracks LABELS tr →
  stream_loop THRESHOLDS i (strip LABELS <$> s) tr
  = strip_run LABELS <$> stream_loop THRESHOLDS i s tr.
Proof.
  revert i tr. induction s as [|ex rest IH]; intros i tr Htr; [done |].
  rewrite fmap_cons. simpl. rewrite visit_strip by done.
  destruct (visit THRESHOLDS tr ex) as [[[tr' ex'] y]|] eqn:Hv; simpl; [| done].
  destruct (all_full tr'); [done |].
  rewrite IH.
  - by destruct (stream_loop THRESHOLDS (S i) rest tr') as [[[tr'' store] refs]|].
  - apply visit_rel in Hv as (_ & _ & Hd & _). simpl in Hd.
    unfold tracks. by rewrite Hd.
Qed.
End strip.

(** C10 (only configured labels). A label in the [sections] of an
    emitted record is a member of [LABELS]; the tracker never has other
    keys; and the predictions for names outside [LABELS] have no effect
    whatever: with them removed from every mapping the run ends with the
    same tracker, the same yields and the same [sections]. *)
Theorem sections_within_labels LABELS THRESHOLDS model clean :
  (∀ tr store refs,
     get_site_stream_run LABELS THRESHOLDS model clean = Some (tr, store, refs) →
     (∀ l, l ∈ dom tr ↔ l ∈ LABELS) ∧
     ∀ ex l, ex ∈ collect (tr, store, refs) → carries l ex → l ∈ LABELS) ∧
  get_site_stream_run LABELS THRESHOLDS
    (λ ss, only_labels LABELS <$> model ss) clean
  = strip_run LABELS <$> get_site_stream_run LABELS THRESHOLDS model clean.
Proof.
  split.
  - intros tr store refs Hrun.
    apply get_site_stream_run_facts in Hrun as (Hd & Hst & _).
    split; [done |]. intros ex l (i & _ & Hi)%elem_of_collect Hl. simpl in Hi.
    destruct (Hst i ex Hi) as (a & _ & _ & _ & Hq). by apply Hq.
  - unfold get_site_stream_run, upper_limit_run.
    rewrite <- stream_loop_strip by (intros l; apply init_tracker_dom).
    f_equal. unfold add_predictions. rewrite <- list_fmap_compose. done.
Qed.

End site_more_claims.

(** ** The order of strings *)

Lemma string_leb_refl (s : string) : String.leb s s = true.
Proof.
  unfold String.leb. induction s as [|c s IH]; [done |]. simpl.
  unfold Ascii.compare. by rewrite N.compare_refl.
Qed.

Lemma string_leb_trans (a b c : string) :
  String.leb a b = true → String.leb b c = true → String.leb a c = true.
Proof.
  unfold String.leb. revert b c.
  induction a as [|x a IH]; intros [|y b] [|z c]; simpl; try done.
  unfold Ascii.compare.
  destruct (N.compare_spec (Ascii.N_of_ascii x) (Ascii.N_of_ascii y)) as [Exy|Lxy|Gxy];
  destruct (N.compare_spec (Ascii.N_of_ascii y) (Ascii.N_of_ascii z)) as [Eyz|Lyz|Gyz];
  destruct (N.compare_spec (Ascii.N_of_ascii x) (Ascii.N_of_ascii z)) as [Exz|Lxz|Gxz];
    try done; try lia.
  apply IH.
Qed.

(** ** Deduplication *)

Section dedup_facts.
Import Utils.
Context {A K : Type} `{EqDecision K}.
Variable key : A → K.

Lemma dedup_from_snoc seen s x :
  dedup_from key seen (s ++ [x])
  = dedup_from key seen s
      ++ (if decide (key x ∈ seen ++ (key <$> s)) then [] else [x]).
Proof.
  revert seen. induction s as [|a s IH]; intros seen; simpl.
  - rewrite app_nil_r. by case_decide.
  - destruct (decide (key a ∈ seen)) as [Ha|Ha]; rewrite IH.
    + f_equal. apply decide_ext. rewrite !elem_of_app, elem_of_cons.
      split; [tauto |]. intros [? | [-> | ?]]; tauto.
    + simpl. do 2 f_equal. apply decide_ext.
      rewrite !elem_of_app, !elem_of_cons, elem_of_app. tauto.
Qed.

Lemma dedup_from_sublist seen s : sublist (dedup_from key seen s) s.
Proof.
  revert seen. induction s as [|a s IH]; intros seen; simpl; [constructor |].
  case_decide; [by apply sublist_cons | by apply sublist_skip].
Qed.

Lemma dedup_from_first seen s x :
  x ∈ dedup_from key seen s →
  ∃ pre post, s = pre ++ x :: post ∧ key x ∉ seen ++ (key <$> pre).
Proof.
  revert seen. induction s as [|a s IH]; intros seen; simpl.
  - by intros ?%elem_of_nil.
  - destruct (decide (key a ∈ seen)) as [Ha|Ha].
    + intros (pre & post & -> & Hk)%IH. exists (a :: pre), post.
      split; [done |]. rewrite fmap_cons, elem_of_app, elem_of_cons.
      rewrite elem_of_app in Hk. intros [? | [E | ?]]; [tauto | | tauto].
      rewrite E in Hk. tauto.
    + intros [-> | Hx]%elem_of_cons.
      * exists [], s. split; [done |]. by rewrite app_nil_r.
      * apply IH in Hx as (pre & post & -> & Hk). exists (a :: pre), post.
        split; [done |]. rewrite fmap_cons, elem_of_app, elem_of_cons.
        rewrite elem_of_app, elem_of_cons in Hk. tauto.
Qed.

Lemma dedup_from_NoDup seen s :
  NoDup (key <$> dedup_from key seen s) ∧
  ∀ x, x ∈ dedup_from key seen s → key x ∉ seen.
Proof.
  revert seen. induction s as [|a s IH]; intros seen; simpl.
  - split; [constructor | by intros x ?%elem_of_nil].
  - destruct (decide (key a ∈ seen)) as [Ha|Ha]; [apply IH |].
    destruct (IH (key a :: seen)) as [Hnd Hout]. split.
    + rewrite fmap_cons. constructor; [| done].
      intros (x & E & Hx)%list_elem_of_fmap. apply (Hout x Hx). rewrite E. by left.
    + intros x [-> | Hx]%elem_of_cons; [done |].
      intros Hs. apply (Hout x Hx). by right.
Qed.

Lemma dedup_stream_NoDup s : NoDup (key <$> dedup_stream key s).
Proof. apply dedup_from_NoDup. Qed.

End dedup_facts.

(** C6 (deduplication). Reading the stream from the left, a record is
    emitted exactly when its key value is not among the key values of the
    records before it, and it is emitted behind everything retained
    before; so the output is a subsequence of the input in input order.
    For a newest-first stream deduplicated by [abstract], the retained
    record is at least as recent as every record sharing its abstract;
    of two records with the same abstract only the first is kept. *)
Theorem dedup_first_seen_wins {A K : Type} `{EqDecision K} (key : A → K)
    (stream : list A) :
  Utils.dedup_stream key [] = [] ∧
  (∀ pre x, Utils.dedup_stream key (pre ++ [x])
            = Utils.dedup_stream key pre
                ++ (if decide (key x ∈ key <$> pre) then [] else [x])) ∧
  sublist (Utils.dedup_stream key stream) stream ∧
  (∀ r1 r2, key r1 = key r2 → Utils.dedup_stream key [r1; r2] = [r1]) ∧
  (∀ raw kept other,
     newest_first raw →
     kept ∈ Utils.dedup_stream abstract raw → other ∈ raw →
     abstract other = abstract kept →
     not_older created kept other).
Proof.
  split_and!.
  - done.
  - intros pre x. unfold Utils.dedup_stream. by rewrite dedup_from_snoc.
  - apply dedup_from_sublist.
  - intros r1 r2 E. unfold Utils.dedup_stream. cbn [Utils.dedup_from].
    rewrite (decide_False (P := key r1 ∈ [])) by (by intros ?%elem_of_nil).
    rewrite decide_True; [done |]. rewrite E. by left.
  - intros raw kept other Hs Hk Ho E.
    apply dedup_from_first in Hk as (pre & post & -> & Hpre). simpl in Hpre.
    apply StronglySorted_app in Hs as (_ & _ & Hs).
    apply StronglySorted_inv in Hs as [_ Hs].
    apply elem_of_app in Ho as [Ho | [-> | Ho]%elem_of_cons].
    + exfalso. apply Hpre. rewrite <- E. apply list_elem_of_fmap. by exists other.
    + apply string_leb_refl.
    + rewrite Forall_forall in Hs. by apply Hs.
Qed.

(** ** Sorting by a string key *)

Section sorted_facts.
Import Utils.
Context {A : Type}.
Variable key : A → string.

Lemma insert_sorted_perm x xs : insert_sorted key x xs ≡ₚ x :: xs.
Proof.
  induction xs as [|y ys IH]; simpl; [done |].
  destruct (String.leb (key x) (key y)); [done |].
  rewrite IH. apply Permutation_swap.
Qed.

Lemma sorted_perm xs : sorted key xs ≡ₚ xs.
Proof.
  induction xs as [|x xs IH]; simpl; [done |].
  by rewrite insert_sorted_perm, IH.
Qed.

Lemma insert_sorted_Sorted x xs :
  Sorted (ascending key) xs → Sorted (ascending key) (insert_sorted key x xs).
Proof.
  induction 1 as [|y ys Hs IH Hhd]; simpl; [by repeat constructor |].
  destruct (String.leb (key x) (key y)) eqn:Hxy.
  - by repeat constructor.
  - constructor; [done |].
    assert (Hyx : ascending key y x).
    { destruct (String.leb_total (key x) (key y)); [congruence | done]. }
    destruct Hhd as [|z zs Hyz]; simpl; [by constructor |].
    destruct (String.leb (key x) (key z)); by constructor.
Qed.

Lemma sorted_Sorted xs : Sorted (ascending key) (sorted key xs).
Proof.
  induction xs as [|x xs IH]; simpl; [constructor |].
  by apply insert_sorted_Sorted.
Qed.

Global Instance not_older_trans : Transitive (not_older key).
Proof. intros a b c Hab Hbc. unfold not_older in *. by eapply string_leb_trans. Qed.

Lemma reversed_sorted_newest_first xs :
  StronglySorted (not_older key) (reverse (sorted key xs)).
Proof.
  apply Sorted_StronglySorted; [apply _ |].
  apply (Sorted_reverse (ascending key)), sorted_Sorted.
Qed.

Lemma StronglySorted_lookup (R : relation A) l i j a b :
  StronglySorted R l → i < j → l !! i = Some a → l !! j = Some b → R a b.
Proof.
  intros Hs. revert i j. induction Hs as [|x l Hs IH Hx]; intros i j Hij Hi Hj.
  - done.
  - destruct j as [|j]; [lia |]. simpl in Hj. destruct i as [|i]; simpl in Hi.
    + injection Hi as <-. rewrite Forall_forall in Hx.
      apply Hx. by eapply list_elem_of_lookup_2.
    + apply (IH i j); [lia | done | done].
Qed.

End sorted_facts.

(** ** The content assembler *)

(** C8 (assembler ordering). In every section returned by
    [get_site_content] the [created] values do not increase from one
    entry to any later one, and no two entries share an [abstract]. *)
Theorem content_newest_first THRESHOLDS show_proba LABELS cfg model clean
    secs s :
  Assembler.get_site_content THRESHOLDS show_proba LABELS cfg model clean
    = Some secs →
  s ∈ secs →
  (∀ i j a b, i < j →
     Assembler.content s !! i = Some a → Assembler.content s !! j = Some b →
     String.leb (Assembler.entry_created b) (Assembler.entry_created a) = true) ∧
  NoDup (Assembler.entry_abstract <$> Assembler.content s).
Proof.
  unfold Assembler.get_site_content, Assembler.assemble. intros Hc Hs.
  apply bind_Some in Hc as (stream & _ & Hc).
  apply bind_Some in Hc as (buckets & _ & [= <-]).
  apply list_elem_of_fmap in Hs as ([k b] & -> & _). simpl. split.
  - intros i j x y Hij Hi Hj.
    eapply (StronglySorted_lookup (not_older Assembler.entry_created));
      [apply reversed_sorted_newest_first | exact Hij | exact Hi | exact Hj].
  - rewrite reverse_Permutation, (sorted_perm Assembler.entry_created).
    apply dedup_stream_NoDup.
Qed.

(** ** Grouping *)

Section nest_facts.
Import Utils.
Context {A B K : Type} `{EqDecision K}.
Variable split : A → option (K * B).

Lemma group_add_keys (k : K) (b : B) (g : list (K * list B)) k' :
  k' ∈ (group_add k b g).*1 ↔ k' = k ∨ k' ∈ g.*1.
Proof.
  induction g as [|[k0 bs] g IH]; simpl.
  - rewrite list_elem_of_singleton. split; [by left | intros [? | ?%elem_of_nil]; done].
  - case_decide; subst; simpl; rewrite !elem_of_cons; [tauto |].
    rewrite IH. tauto.
Qed.

Lemma group_add_well (k : K) (b : B) g : well_grouped g → well_grouped (group_add k b g).
Proof.
  intros [Hnd Hne]. induction g as [|[k0 bs] g IH]; simpl.
  - split; repeat constructor; [by intros ?%elem_of_nil | done].
  - apply NoDup_cons in Hnd as [Hk0 Hnd]. apply Forall_cons in Hne as [Hbs Hne].
    case_decide; subst.
    + split; simpl; [by constructor |]. constructor; [| done]. simpl.
      by intros [? _]%app_eq_nil.
    + destruct (IH Hnd Hne) as [IH1 IH2]. split; simpl.
      * constructor; [| done]. rewrite group_add_keys.
        intros [? | ?]; [congruence | done].
      * by constructor.
Qed.

Lemma group_of_add (k : K) (b : B) (g : list (K * list B)) k' :
  group_of k' (group_add k b g)
  = group_of k' g ++ (if decide (k = k') then [b] else []).
Proof.
  induction g as [|[k0 bs] g IH]; simpl.
  - repeat case_decide; congruence.
  - destruct (decide (k = k0)) as [->|Hk]; simpl.
    + repeat case_decide; try congruence. by rewrite app_nil_r.
    + destruct (decide (k' = k0)) as [->|Hk']; [| done].
      rewrite decide_False by done. by rewrite app_nil_r.
Qed.

Lemma group_of_elem (k : K) (g : list (K * list B)) :
  well_grouped g → ∀ bs, (k, bs) ∈ g ↔ bs = group_of k g ∧ bs ≠ [].
Proof.
  intros [Hnd Hne]. induction g as [|[k0 bs0] g IH]; intros bs; simpl.
  - split; [by intros ?%elem_of_nil | by intros [-> ?]].
  - apply NoDup_cons in Hnd as [Hk0 Hnd]. apply Forall_cons in Hne as [Hbs Hne].
    rewrite elem_of_cons, (IH Hnd Hne). destruct (decide (k = k0)) as [->|Hk].
    + split; [| intros [-> ?]; by left].
      intros [[= ->] | [-> Hx]]; [done |]. exfalso. apply Hk0.
      apply list_elem_of_fmap. exists (k0, group_of k0 g). split; [done |].
      by apply (IH Hnd Hne).
    + split; [| tauto]. intros [[= ? ?] | ?]; [done | tauto].
Qed.

Lemma members_cons k x s :
  members split k (x :: s)
  = match split x with
    | Some (k', b) => if decide (k' = k) then b :: members split k s else members split k s
    | None => members split k s
    end.
Proof.
  unfold members. simpl. destruct (split x) as [[k' b]|]; simpl; [| done].
  by case_decide.
Qed.

Lemma nest_loop_facts s g g' :
  nest_loop split s g = Some g' → well_grouped g →
  well_grouped g' ∧ ∀ k, group_of k g' = group_of k g ++ members split k s.
Proof.
  revert g. induction s as [|x s IH]; intros g; cbn [nest_loop].
  - intros [= <-] Hw. split; [done |]. intros k. by rewrite app_nil_r.
  - destruct (split x) as [[k b]|] eqn:Hx; cbn [mbind option_bind]; [| done].
    intros Hl Hw. destruct (IH _ Hl (group_add_well k b g Hw)) as [Hw' Hg].
    split; [done |]. intros k'. rewrite Hg, group_of_add, members_cons, Hx.
    rewrite <- app_assoc. by case_decide.
Qed.

(** [nest_by] makes one group per key value, holding exactly the items
    of that key in stream order. *)
Lemma nest_by_groups s g :
  nest_by split s = Some g →
  NoDup g.*1 ∧ ∀ k bs, (k, bs) ∈ g ↔ bs = members split k s ∧ bs ≠ [].
Proof.
  intros Hn. apply nest_loop_facts in Hn as [Hw Hg].
  - split; [apply Hw |]. intros k bs. rewrite (group_of_elem k g Hw), Hg. done.
  - split; constructor.
Qed.

Lemma nest_by_total s :
  Forall (λ x, is_Some (split x)) s → is_Some (nest_by split s).
Proof.
  unfold nest_by. generalize (@nil (K * list B)).
  induction s as [|x s IH]; intros g Hs; simpl; [done |].
  apply Forall_cons in Hs as [[[k b] ->] Hs]. simpl. by apply IH.
Qed.

End nest_facts.

(** ** The partitioned archive writer *)

Lemma string_length_app (a b : string) :
  String.length (a +:+ b) = String.length a + String.length b.
Proof. induction a as [|c a IH]; simpl; [done | by rewrite IH]. Qed.

Lemma string_app_suffix_inj (a b s : string) : a +:+ s = b +:+ s → a = b.
Proof.
  revert b. induction a as [|c a IH]; intros [|d b] E; simpl in E.
  - done.
  - apply (f_equal String.length) in E.
    simpl in E. rewrite !string_length_app in E. simpl in E. lia.
  - apply (f_equal String.length) in E.
    simpl in E. rewrite !string_length_app in E. simpl in E. lia.
  - injection E as -> E. f_equal. by apply IH.
Qed.

Section archive_facts.
Import Utils Archive.
Variable jsonl : list Article → string.

Lemma write_groups_lookup groups fs path :
  foldl (write_group jsonl) fs groups !! path
  = match written jsonl groups path with Some c => Some c | None => fs !! path end.
Proof.
  unfold written. induction groups as [|[day subset] groups IH] using rev_ind;
    [done |].
  rewrite !foldl_snoc. simpl. rewrite lookup_insert.
  case_decide; [done | apply IH].
Qed.

(** Writing the same groups a second time changes nothing. *)
Lemma write_groups_twice groups fs :
  foldl (write_group jsonl) (foldl (write_group jsonl) fs groups) groups
  = foldl (write_group jsonl) fs groups.
Proof.
  apply map_eq. intros path. rewrite !write_groups_lookup.
  by destruct (written jsonl groups path).
Qed.

Lemma written_group groups day subset :
  NoDup groups.*1 → (day, subset) ∈ groups →
  written jsonl groups (day +:+ ".jsonl") = Some (jsonl (set_created day <$> subset)).
Proof.
  unfold written. induction groups as [|[d bs] groups IH] using rev_ind;
    [by intros _ ?%elem_of_nil |].
  rewrite fmap_app, foldl_snoc. simpl. intros Hnd Hin.
  apply NoDup_app in Hnd as (Hnd & Hd & _).
  destruct (decide (d +:+ ".jsonl" = day +:+ ".jsonl")) as [E|E].
  - apply string_app_suffix_inj in E as ->.
    apply elem_of_app in Hin as [Hin | [= <-]%list_elem_of_singleton]; [| done].
    exfalso. apply (Hd day); [| by left].
    apply list_elem_of_fmap. by exists (day, subset).
  - apply elem_of_app in Hin as [Hin | [= -> ->]%list_elem_of_singleton]; [| done].
    by apply IH.
Qed.

Lemma written_other groups path :
  (∀ day, day ∈ groups.*1 → day +:+ ".jsonl" ≠ path) →
  written jsonl groups path = None.
Proof.
  unfold written. induction groups as [|[d bs] groups IH] using rev_ind;
    [done |].
  rewrite fmap_app, foldl_snoc. simpl. intros Hp.
  rewrite decide_False.
  - apply IH. intros day Hday. apply Hp, elem_of_app. by left.
  - apply Hp, elem_of_app. right. by left.
Qed.

Lemma members_split_created day (s : list Article) :
  members split_created day s = filter (λ a, created a = day) s.
Proof.
  induction s as [|a s IH]; [done |].
  rewrite members_cons, filter_cons. simpl. rewrite IH. by case_decide.
Qed.

Lemma members_mutate_created day (s : list Article) :
  members split_created day (mutate_created <$> s)
  = set_created day <$> filter (λ b, day_of b = day) s.
Proof.
  rewrite members_split_created. induction s as [|a s IH]; [done |].
  rewrite fmap_cons, !filter_cons.
  change (created (mutate_created a)) with (day_of a).
  destruct (decide (day_of a = day)) as [E|E]; [| done].
  rewrite fmap_cons, IH. f_equal.
  unfold mutate_created. fold (day_of a). by rewrite E.
Qed.

(** C7 (partition idempotence). A run of [save_clean_download_stream]
    succeeds; running it again over the same downloads leaves the
    archive exactly as the first run left it; after a run the partition of
    every day that occurs holds the deduplicated records of that day, in
    stream order, each with [created] cut down to the day, whatever the
    file held before; and no other file is touched. *)
Theorem partition_idempotent downloads fs :
  ∃ fs1,
    save_clean_download_stream jsonl downloads fs = Some fs1 ∧
    save_clean_download_stream jsonl downloads fs1 = Some fs1 ∧
    (∀ a, a ∈ dedup_stream abstract (get_raw_download_stream downloads) →
       fs1 !! (day_of a +:+ ".jsonl")
       = Some (jsonl (set_created (day_of a) <$>
                        filter (λ b, day_of b = day_of a)
                          (dedup_stream abstract
                             (get_raw_download_stream downloads))))) ∧
    (∀ path,
       (∀ a, a ∈ dedup_stream abstract (get_raw_download_stream downloads) →
             day_of a +:+ ".jsonl" ≠ path) →
       fs1 !! path = fs !! path).
Proof.
  unfold save_clean_download_stream.
  set (stream := dedup_stream abstract (get_raw_download_stream downloads)).
  destruct (nest_by_total split_created (mutate_created <$> stream))
    as [nested Hn]; [by apply Forall_forall |].
  rewrite Hn. simpl. exists (foldl (write_group jsonl) fs nested).
  destruct (nest_by_groups _ _ _ Hn) as [Hnd Hg].
  pose proof (λ day, members_mutate_created day stream) as Hmem.
  split_and!.
  - done.
  - by rewrite write_groups_twice.
  - intros a Ha. rewrite write_groups_lookup.
    assert (Hin : (day_of a, members split_created (day_of a)
                               (mutate_created <$> stream)) ∈ nested).
    { apply Hg. split; [done |]. rewrite Hmem.
      apply (elem_of_not_nil (set_created (day_of a) a)).
      apply list_elem_of_fmap. exists a. split; [done |].
      by apply list_elem_of_filter. }
    rewrite (written_group _ _ _ Hnd Hin), Hmem.
    do 2 f_equal. rewrite <- list_fmap_compose. apply list_fmap_ext.
    intros i b Hb. done.
  - intros path Hp. rewrite write_groups_lookup, written_other; [done |].
    intros day (g & -> & Hgin)%list_elem_of_fmap. destruct g as [d bs].
    apply Hg in Hgin as [-> Hne]. simpl. rewrite Hmem in Hne.
    destruct (filter (λ b, day_of b = d) stream) as [|a l] eqn:Hf; [done |].
    assert (Ha : a ∈ filter (λ b, day_of b = d) stream)
      by (rewrite Hf; by left).
    apply list_elem_of_filter in Ha as [Hd Ha]. rewrite <- Hd. by apply Hp.
Qed.

End archive_facts.

(** ** The training-set accumulator *)

Section pydict_facts.
Context {V : Type}.
Implicit Types d : list (string * V).

Lemma pydict_get_set k v d k' :
  PyDict.get k' (PyDict.set k v d)
  = if decide (k' = k) then Some v else PyDict.get k' d.
Proof.
  induction d as [|[k0 v0] d IH]; simpl.
  - by case_decide.
  - destruct (decide (k = k0)) as [->|Hk]; simpl.
    + by case_decide.
    + rewrite IH. repeat case_decide; congruence.
Qed.

Lemma pydict_elem_of_set k v d k' v' :
  (k', v') ∈ PyDict.set k v d → (k', v') ∈ d ∨ (k' = k ∧ v' = v).
Proof.
  induction d as [|[k0 v0] d IH]; simpl.
  - intros [= -> ->]%list_elem_of_singleton. by right.
  - destruct (decide (k = k0)) as [->|Hk].
    + intros [[= -> ->] | ?]%elem_of_cons; [by right | left; by right].
    + intros [[= -> ->] | Hin]%elem_of_cons; [left; by left |].
      destruct (IH Hin) as [? | ?]; [left; by right | by right].
Qed.
End pydict_facts.

Section train_facts.
Import Utils Train TrainSpec.

Lemma train_row_split ex o :
  label ex ≠ "text" →
  split_text (train_row ex o) = Some (VStr (text ex), pair_row (label ex, o)).
Proof.
  intros Hl. unfold train_row, split_text. simpl.
  rewrite decide_False by done. simpl. done.
Qed.

Lemma rows_members stream :
  labels_apart stream →
  Forall (λ r, is_Some (split_text r)) (_sentence_data_to_train_format stream) ∧
  ∀ v, members split_text v (_sentence_data_to_train_format stream)
       = match v with
         | VStr t => pair_row <$> outcome_pairs t stream
         | VInt _ => []
         end.
Proof.
  induction stream as [|ex s IH]; intros Hl.
  - split; [constructor | by intros []].
  - destruct IH as [IH1 IH2].
    { intros ex' Hin. apply Hl. by right. }
    simpl. unfold outcome_pairs. simpl. fold (outcome_pairs).
    destruct (outcome_of (answer ex)) as [o|] eqn:Ho.
    + assert (Hne : label ex ≠ "text").
      { apply Hl; [by left | by rewrite Ho]. }
      split.
      * constructor; [| done]. rewrite train_row_split by done. by eexists.
      * intros v. rewrite members_cons, train_row_split by done.
        rewrite IH2. destruct v as [t|n]; [| by rewrite decide_False].
        destruct (decide (text ex = t)) as [->|Ht].
        -- rewrite decide_True by done. done.
        -- rewrite decide_False by congruence. done.
    + split; [done |]. intros v. rewrite IH2. destruct v as [t|n]; [| done].
      case_decide; done.
Qed.

Lemma update_pair_rows d pairs :
  foldl PyDict.update d (pair_row <$> pairs)
  = foldl (λ acc p, PyDict.set p.1 (VInt p.2) acc) d pairs.
Proof.
  revert d. induction pairs as [|p pairs IH]; intros d; [done |].
  rewrite fmap_cons. simpl. apply IH.
Qed.

Lemma get_set_pairs l d pairs :
  PyDict.get l (foldl (λ acc p, PyDict.set p.1 (VInt p.2) acc) d pairs)
  = match last_outcome l pairs with
    | Some o => Some (VInt o)
    | None => PyDict.get l d
    end.
Proof.
  unfold last_outcome. induction pairs as [|p pairs IH] using rev_ind; [done |].
  rewrite !foldl_snoc, pydict_get_set.
  destruct (decide (l = p.1)) as [->|Hl].
  - by rewrite decide_True.
  - rewrite decide_False by congruence. done.
Qed.

Lemma elem_of_set_pairs k v d pairs :
  (k, v) ∈ foldl (λ acc p, PyDict.set p.1 (VInt p.2) acc) d pairs →
  (k, v) ∈ d ∨ ∃ o, (k, o) ∈ pairs ∧ v = VInt o.
Proof.
  induction pairs as [|p pairs IH] using rev_ind; [by left |].
  rewrite foldl_snoc. intros [Hin | [-> ->]]%pydict_elem_of_set.
  - destruct (IH Hin) as [? | (o & Ho & ->)]; [by left |].
    right. exists o. split; [| done]. apply elem_of_app. by left.
  - right. exists p.2. split; [| done]. apply elem_of_app. right.
    destruct p. by left.
Qed.

Lemma elem_of_outcome_pairs t stream k o :
  (k, o) ∈ outcome_pairs t stream ↔
  ∃ ex, ex ∈ stream ∧ text ex = t ∧ label ex = k ∧
        outcome_of (answer ex) = Some o.
Proof.
  unfold outcome_pairs. rewrite list_elem_of_omap. split.
  - intros (ex & Hin & Hex). exists ex. case_decide; [| done].
    destruct (outcome_of (answer ex)); simpl in Hex; [| done].
    injection Hex as <- <-. done.
  - intros (ex & Hin & <- & <- & Ho). exists ex. split; [done |].
    rewrite decide_True by done. by rewrite Ho.
Qed.

Lemma outcome_pairs_not_nil t stream :
  outcome_pairs t stream ≠ [] ↔
  ∃ ex, ex ∈ stream ∧ is_Some (outcome_of (answer ex)) ∧ text ex = t.
Proof.
  split.
  - destruct (outcome_pairs t stream) as [|[k o] l] eqn:E; [done |]. intros _.
    assert (Hin : (k, o) ∈ outcome_pairs t stream) by (rewrite E; by left).
    apply elem_of_outcome_pairs in Hin as (ex & ? & ? & ? & Ho).
    exists ex. by rewrite Ho.
  - intros (ex & Hin & [o Ho] & Ht).
    apply (elem_of_not_nil (label ex, o)), elem_of_outcome_pairs. by exists ex.
Qed.

(** The texts of the accumulated set are pairwise distinct, whatever
    rows go in. *)
Lemma accumulate_unique_text rows out :
  _accumulate_train_stream rows = Some out → NoDup (tx_text <$> out).
Proof.
  unfold _accumulate_train_stream. intros H.
  apply bind_Some in H as (nested & Hn & [= <-]).
  apply nest_by_groups in Hn as [Hnd _].
  by rewrite <- list_fmap_compose.
Qed.

End train_facts.

Section train_claims.
Import Utils Train TrainSpec.

(** C5, as amended (accumulation). [accept] becomes 1, [reject] becomes
    0 and every other answer, [ignore] among them, gives no row. For a
    stream in which no record with an outcome is labelled ["text"],
    accumulation succeeds with exactly one example per distinct text of
    the records with an outcome; the [categories] of the example of a
    text map a label to the outcome of the last record processed for
    that text and label, and every entry of [categories] is such a
    label-to-outcome pair. *)
Theorem accumulate_exact (stream : list Annotation) :
  labels_apart stream →
  outcome_of "accept" = Some 1%Z ∧ outcome_of "reject" = Some 0%Z ∧
  outcome_of "ignore" = None ∧
  ∃ out, accumulate stream = Some out ∧ accumulated stream out.
Proof.
  intros Hl. split_and!; [done | done | done |].
  destruct (rows_members stream Hl) as [Hsplit Hmem].
  unfold accumulate, _accumulate_train_stream.
  destruct (nest_by_total split_text _ Hsplit) as [nested Hn]. rewrite Hn.
  simpl. eexists. split; [done |].
  destruct (nest_by_groups _ _ _ Hn) as [Hnd Hg].
  assert (Hte : ∀ te, te ∈ map nest_categories nested →
            ∃ t, tx_text te = VStr t ∧ outcome_pairs t stream ≠ [] ∧
                 categories te
                 = foldl (λ acc p, PyDict.set p.1 (VInt p.2) acc) []
                     (outcome_pairs t stream)).
  { intros te ([v bs] & -> & Hin)%list_elem_of_fmap.
    apply Hg in Hin as [-> Hne]. unfold nest_categories. simpl.
    rewrite Hmem in Hne |- *.
    destruct v as [t|n]; [| done]. exists t.
    rewrite update_pair_rows. split_and!; [done | | done].
    intros E. by rewrite E in Hne. }
  unfold accumulated. split_and!.
  - by rewrite <- list_fmap_compose.
  - intros v. split.
    + intros (te & -> & Hin)%list_elem_of_fmap.
      destruct (Hte te Hin) as (t & -> & Hne & _).
      apply outcome_pairs_not_nil in Hne as (ex & ? & ? & <-). by exists ex.
    + intros (ex & Hin & Ho & ->).
      apply list_elem_of_fmap.
      exists (nest_categories
                (VStr (text ex), members split_text (VStr (text ex))
                   (_sentence_data_to_train_format stream))).
      split; [done |]. apply list_elem_of_fmap. eexists. split; [done |].
      apply Hg. split; [done |]. rewrite Hmem.
      assert (outcome_pairs (text ex) stream ≠ []) as Hne
        by (apply outcome_pairs_not_nil; by exists ex).
      by destruct (outcome_pairs (text ex) stream).
  - intros te t Hin Ht l. destruct (Hte te Hin) as (t' & Ht' & _ & ->).
    assert (t' = t) as -> by congruence.
    rewrite get_set_pairs. by destruct (last_outcome l _).
  - intros te k v Hin Hkv. destruct (Hte te Hin) as (t & Ht & _ & Hc).
    rewrite Hc in Hkv.
    apply elem_of_set_pairs in Hkv as [?%elem_of_nil | (o & Ho & ->)]; [done |].
    apply elem_of_outcome_pairs in Ho as (ex & ? & <- & ? & ?).
    by exists ex, o.
Qed.

(** C5 as stated fails: a record labelled ["text"] overwrites the text
    of its own row, so its text gets no example. *)
Lemma accumulate_label_text_lost :
  ¬ ∃ out, accumulate [mkAnnotation "s1" "text" "accept"] = Some out ∧
           accumulated [mkAnnotation "s1" "text" "accept"] out.
Proof.
  intros (out & Hout & _ & Htexts & _).
  vm_compute in Hout. injection Hout as <-.
  assert (H : VStr "s1" ∈ tx_text <$> [mkTrainingExample (VInt 1) []]).
  { apply Htexts. eexists. split; [by left |]. split; [by eexists | done]. }
  apply list_elem_of_singleton in H. discriminate H.
Qed.

(** C4 (the train operation). [get_train_stream], which the train
    command feeds to the model, returns the lines of the label files one
    after the other: a text annotated in two files comes out twice. *)
Theorem get_train_stream_repeats_text :
  let annot : gmap string (list AnnotLine) :=
    {[ "cs.LG" := [mkAnnotLine "t" (Some {[ "cs.LG" := 1%Z ]}) None];
       "cs.CL" := [mkAnnotLine "t" None (Some {[ "cs.CL" := 1%Z ]})] ]} in
  ∃ out, get_train_stream annot ["cs.LG"; "cs.CL"] = Some out ∧
         line_text <$> out = ["t"; "t"] ∧
         ¬ NoDup (line_text <$> out).
Proof.
  eexists. split; [vm_compute; reflexivity |]. split; [done |].
  simpl. intros Hnd. apply NoDup_cons in Hnd as [Hnd _]. apply Hnd. by left.
Qed.

End train_claims.

(** ** The model on small inputs *)

Section small_inputs.
Import Utils Archive Train Site Assembler Samples.

Example site_small :
  get_site_stream ["cs.LG"] thr model1
    [art "2024-01-02" "A" ["good"; "edge"; "good"]; art "2024-01-01" "B" ["bad"]]
  = Some (let e := {| base := art "2024-01-02" "A" ["good"; "edge"; "good"];
                      preds := model1 ["good"; "edge"; "good"];
                      sections := Some ["cs.LG"] |} in [e; e]).
Proof. vm_compute. reflexivity. Qed.

Example dedup_first_seen :
  dedup_stream abstract [art "2024-01-02" "X" []; art "2024-01-01" "X" []]
  = [art "2024-01-02" "X" []].
Proof. reflexivity. Qed.

Example accumulate_small :
  _accumulate_train_stream (_sentence_data_to_train_format
    [mkAnnotation "s1" "a" "accept"; mkAnnotation "s2" "a" "ignore";
     mkAnnotation "s1" "b" "reject"; mkAnnotation "s1" "a" "reject"])
  = Some [mkTrainingExample (VStr "s1") [("a", VInt 0); ("b", VInt 0)]].
Proof. reflexivity. Qed.

Example accumulate_label_text :
  _accumulate_train_stream (_sentence_data_to_train_format
    [mkAnnotation "s1" "text" "accept"])
  = Some [mkTrainingExample (VInt 1) []].
Proof. reflexivity. Qed.

Example archive_small :
  save_clean_download_stream (λ l, String.concat ";" (created <$> l))
    [[art "2024-01-01 10:00:00" "B" []];
     [art "2024-01-02 09:00:00" "A" []; art "2024-01-02 08:00:00" "B" []]] ∅
  = Some {[ "2024-01-02.jsonl" := "2024-01-02;2024-01-02" ]}.
Proof. vm_compute. reflexivity. Qed.

Example content_small :
  (map (λ s, map entry_created (content s)) <$>
    get_site_content thr (λ _, "p") ["cs.LG"] [mkSectionConfig "cs.LG" 0.5]
      model1
      [art "2024-01-01" "A" ["good"]; art "2024-01-03" "B" ["good"];
       art "2024-01-02" "C" ["good"]])
  = Some [["2024-01-03"; "2024-01-02"; "2024-01-01"]].
Proof. vm_compute. reflexivity. Qed.

End small_inputs.

(** ** The theorems at sample inputs *)

Section instances.
Import Utils Archive Train TrainSpec Site SiteSpec Assembler Samples.

Lemma sample_run :
  get_site_stream_run ["cs.LG"] thr model1 clean2
  = Some ({[ "cs.LG" := 3 ]}, scored <$> clean2, [0; 0; 1]).
Proof. vm_compute. reflexivity. Defined.

Lemma sample_stream :
  get_site_stream ["cs.LG"] thr model1 clean2
  = Some (scored <$> [art "2024-01-02" "A" ["good"; "edge"; "good"];
                      art "2024-01-02" "A" ["good"; "edge"; "good"];
                      art "2024-01-01" "B" ["good"]]).
Proof. vm_compute. reflexivity. Defined.

Lemma quota_bound_witness : length [0; 1] ≤ 50.
Proof.
  apply (quota_bound ["cs.LG"] thr model1 clean2 _ _ _ "cs.LG" [0; 1] sample_run).
  - apply (bool_decide_unpack _). by vm_compute.
  - intros i Hi. repeat (apply elem_of_cons in Hi as [-> | Hi]).
    + split; [by left |]. eexists. split; [reflexivity |].
      unfold carries; simpl. by left.
    + split; [right; right; by left |]. eexists. split; [reflexivity |].
      unfold carries; simpl. by left.
    + by apply elem_of_nil in Hi.
Defined.

Lemma threshold_gate_witness :
  let ex := scored (art "2024-01-02" "A" ["good"; "edge"; "good"]) in
  preds ex = model1 (sentences (base ex)) ∧
  ∃ ps p t, ps ∈ preds ex ∧ ("cs.LG", p) ∈ ps ∧ thr !! "cs.LG" = Some t ∧
            (t < p)%Q ∧ ¬ (p == t)%Q.
Proof.
  apply (threshold_gate ["cs.LG"] thr model1 clean2 _ _ "cs.LG" sample_stream).
  - by left.
  - unfold carries; simpl. by left.
Defined.

Lemma first_thousand_only_witness :
  ∃ i, i < 1000 ∧
       clean2 !! i
       = Some (base (scored (art "2024-01-01" "B" ["good"]))).
Proof.
  apply (first_thousand_only ["cs.LG"] thr model1 clean2 _ _ sample_stream).
  right. right. by left.
Defined.

Lemma sample_full_run :
  ∃ store, upper_limit_run thr ["cs.LG"] pre50
           = Some ({[ "cs.LG" := 50 ]}, store, replicate 50 0).
Proof. eexists. vm_compute. reflexivity. Defined.

Lemma early_termination_witness :
  ∃ store,
    upper_limit_run thr ["cs.LG"] (pre50 ++ post1)
    = Some ({[ "cs.LG" := 50 ]}, store, replicate 50 0) ∧
    length store ≤ length pre50 ∧
    Forall (λ r, r < length pre50) (replicate 50 0).
Proof.
  destruct sample_full_run as [store Hrun]. exists store.
  apply early_termination; [done | exact Hrun | by vm_compute].
Defined.

Lemma sections_within_labels_witness :
  "cs.LG" ∈ ["cs.LG"] ∧
  get_site_stream_run ["cs.LG"] thr (λ ss, only_labels ["cs.LG"] <$> model1 ss)
    clean2
  = strip_run ["cs.LG"]
      <$> get_site_stream_run ["cs.LG"] thr model1 clean2.
Proof.
  destruct (sections_within_labels ["cs.LG"] thr model1 clean2) as [H1 H2].
  split; [| exact H2].
  destruct (H1 _ _ _ sample_run) as [_ H].
  apply (H (scored (art "2024-01-01" "B" ["good"]))).
  - simpl. right. right. by left.
  - unfold carries; simpl. by left.
Defined.

Lemma dedup_first_seen_wins_witness :
  not_older created (art "2024-01-02" "X" []) (art "2024-01-01" "X" []) ∧
  dedup_stream abstract [art "2024-01-02" "X" []; art "2024-01-01" "X" []]
  = [art "2024-01-02" "X" []].
Proof.
  destruct (dedup_first_seen_wins abstract
              [art "2024-01-02" "X" []; art "2024-01-01" "X" []])
    as (_ & _ & _ & Hpair & Hnew).
  split; [| by apply Hpair].
  apply (Hnew [art "2024-01-02" "X" []; art "2024-01-01" "X" []]).
  - repeat constructor.
  - by left.
  - right. by left.
  - done.
Defined.

Lemma sample_content :
  ∃ s, get_site_content thr show1 ["cs.LG"] cfg1 model1 clean3 = Some [s] ∧
       entry_created <$> content s
       = ["2024-01-03"; "2024-01-02"; "2024-01-01"].
Proof. eexists. split; vm_compute; reflexivity. Defined.

Lemma content_newest_first_witness :
  ∃ s, get_site_content thr show1 ["cs.LG"] cfg1 model1 clean3 = Some [s] ∧
       (∀ i j a b, i < j → content s !! i = Some a → content s !! j = Some b →
          String.leb (entry_created b) (entry_created a) = true) ∧
       NoDup (entry_abstract <$> content s).
Proof.
  destruct sample_content as (s & Hs & _). exists s. split; [exact Hs |].
  apply (content_newest_first thr show1 ["cs.LG"] cfg1 model1 clean3 [s] s Hs).
  by left.
Defined.

Lemma partition_idempotent_witness :
  ∃ fs1,
    save_clean_download_stream jsonl1 downloads2 ∅ = Some fs1 ∧
    save_clean_download_stream jsonl1 downloads2 fs1 = Some fs1 ∧
    fs1 !! "2024-01-02.jsonl" = Some "2024-01-02,A;2024-01-02,B" ∧
    fs1 !! "2024-01-01.jsonl" = None.
Proof.
  destruct (partition_idempotent jsonl1 downloads2 ∅)
    as (fs1 & H1 & H2 & H3 & H4).
  exists fs1. split_and!; [done | done | |].
  - apply (H3 (art "2024-01-02 09:00:00" "A" [])). by left.
  - rewrite (H4 "2024-01-01.jsonl"); [done |].
    intros a Ha. vm_compute in Ha.
    repeat (apply elem_of_cons in Ha as [-> | Ha]);
      [done | done | by apply elem_of_nil in Ha].
Defined.

Lemma accumulate_exact_witness :
  ∃ out, accumulate annotations4 = Some out ∧ accumulated annotations4 out.
Proof.
  apply (accumulate_exact annotations4).
  intros ex Hin _. repeat (apply elem_of_cons in Hin as [-> | Hin]);
    try done. by apply elem_of_nil in Hin.
Defined.

End instances.

(** ** Section assignment: yields, failures and composition *)

Section site_yields.
Import Site SiteSpec SiteSpec2.
Variable THRESHOLDS : gmap string Q.

Lemma total_insert (tr : gmap string nat) k n m :
  tr !! k = Some n → total (<[k := m]> tr) + n = total tr + m.
Proof.
  intros Hk. unfold total.
  rewrite <- (insert_delete_eq tr k m).
  rewrite map_fold_insert_L; [| intros; lia | apply lookup_delete_eq].
  rewrite (map_fold_delete_L _ _ k n tr); [lia | intros; lia | done].
Qed.

Lemma list_set_well ex secs name :
  well_sectioned (with_sections ex (list_set (secs ++ [name]))).
Proof.
  exists (list_set (secs ++ [name])). split; [done |]. split.
  - apply (elem_of_not_nil name). unfold list_set.
    rewrite elem_of_elements, elem_of_list_to_set, elem_of_app. right. by left.
  - unfold list_set. apply NoDup_elements.
Qed.

Global Instance yield_rel_refl : Reflexive yield_rel.
Proof. intros v. unfold yield_rel. split_and!; [lia | lia | done | lia]. Qed.

Global Instance yield_rel_trans : Transitive yield_rel.
Proof.
  intros u v w (H1 & H2 & H3 & H4) (H1' & H2' & H3' & H4').
  unfold yield_rel. split_and!; [lia | lia | |].
  - intros E. rewrite H3' by lia. apply H3. lia.
  - intros Hlt. destruct (decide (v.2 < w.2)) as [Hvw|Hvw]; [by apply H4' |].
    rewrite H3' by lia. apply H4. lia.
Qed.

Lemma item_step_yield u it u' :
  item_step THRESHOLDS u it = Some u' → yield_rel u u'.
Proof.
  destruct u as [[tr ex] y], it as [name proba]. intros Hs.
  apply item_step_inv in Hs as [-> | (n & t & Hn & Ht & Hlt & Hlim & ->)];
    [reflexivity |].
  unfold yield_rel; simpl. split_and!; [lia | | lia |].
  - pose proof (total_insert tr name n (S n) Hn). lia.
  - intros _. apply list_set_well.
Qed.

Lemma visit_yield tr ex tr' ex' y :
  visit THRESHOLDS tr ex = Some (tr', ex', y) →
  total tr' = total tr + y ∧ (y = 0 → tr' = tr ∧ ex' = ex) ∧
  (0 < y → well_sectioned ex').
Proof.
  unfold visit. intros Hv.
  apply (preds_loop_rel THRESHOLDS yield_rel) in Hv.
  - destruct Hv as (_ & H2 & H3 & H4). simpl in *. split_and!; [lia | | done].
    intros ->. specialize (H3 eq_refl). by injection H3.
  - intros u p it u' _ _. apply item_step_yield.
Qed.

(** The yields of a run are as many as the counters gained; a pulled
    record was yielded exactly when it has sections, and is otherwise
    what it was. *)
Lemma stream_loop_yields s i tr tr' store refs :
  stream_loop THRESHOLDS i s tr = Some (tr', store, refs) →
  total tr' = total tr + length refs ∧
  ∀ j ex ex', s !! j = Some ex → store !! j = Some ex' →
    (i + j ∈ refs → well_sectioned ex') ∧ (i + j ∉ refs → ex' = ex).
Proof.
  intros H.
  refine (stream_loop_rect' THRESHOLDS
    (λ i s tr r,
       total r.1.1 = total tr + length r.2 ∧
       ∀ j ex ex', s !! j = Some ex → r.1.2 !! j = Some ex' →
         (i + j ∈ r.2 → well_sectioned ex') ∧ (i + j ∉ r.2 → ex' = ex))
    _ _ _ s i tr _ H); clear; simpl.
  - intros i tr. split; [lia | done].
  - intros i ex rest tr tr' ex' y Hv _.
    apply visit_yield in Hv as (Ht & H0 & Hy). rewrite length_replicate.
    split; [done |]. intros [|j] x x' Hx Hx'; [| done].
    simpl in *. injection Hx as <-. injection Hx' as <-.
    rewrite Nat.add_0_r. split.
    + intros [_ Hne]%elem_of_replicate. apply Hy. lia.
    + intros Hn. apply H0. destruct y; [done |]. exfalso. apply Hn. by left.
  - intros i ex rest tr tr' ex' y tr'' store refs Hv _ Hrest [IHt IHs].
    apply visit_yield in Hv as (Ht & H0 & Hy).
    apply stream_loop_facts in Hrest as (_ & _ & Hr & _).
    rewrite Forall_forall in Hr.
    rewrite length_app, length_replicate. split; [lia |].
    intros [|j] x x' Hx Hx'; simpl in *.
    + injection Hx as <-. injection Hx' as <-. rewrite Nat.add_0_r.
      rewrite elem_of_app, elem_of_replicate. split.
      * intros [[_ Hne] | Hin]; [apply Hy; lia |]. apply Hr in Hin. lia.
      * intros Hn. apply H0. destruct y; [done |]. exfalso. apply Hn. left.
        split; [done | lia].
    + destruct (IHs j x x' Hx Hx') as [IH1 IH2].
      replace (i + S j) with (S i + j) by lia.
      rewrite elem_of_app, elem_of_replicate. split.
      * intros [[E _] | Hin]; [lia | by apply IH1].
      * intros Hn. apply IH2. intros Hin. apply Hn. by right.
Qed.

End site_yields.

Section site_extras.
Import Site SiteSpec SiteSpec2.

(** X1. A record pulled by section assignment was yielded exactly when
    it has a [sections] key: a yielded record holds a non-empty list of
    sections without repeats, and a record that was never yielded has no
    [sections] key at all. *)
Theorem yielded_iff_sectioned LABELS THRESHOLDS model clean tr store refs j ex :
  get_site_stream_run LABELS THRESHOLDS model clean = Some (tr, store, refs) →
  store !! j = Some ex →
  (j ∈ refs → ∃ s, sections ex = Some s ∧ s ≠ [] ∧ NoDup s) ∧
  (j ∉ refs → sections ex = None).
Proof.
  unfold get_site_stream_run, upper_limit_run. intros Hrun Hj.
  pose proof (stream_loop_facts _ _ _ _ _ _ _ Hrun) as (_ & Hf & _).
  destruct (Forall2_lookup_r _ _ _ _ _ Hf Hj) as (ex0 & Hj0 & _).
  apply lookup_take_Some in Hj0 as [Hj0 _].
  destruct (stream_loop_yields _ _ _ _ _ _ _ Hrun) as [_ Hall].
  destruct (Hall j ex0 ex Hj0 Hj) as [Hy Hn].
  simpl in *. split; [done |]. intros Hnot. rewrite (Hn Hnot).
  unfold add_predictions in Hj0. rewrite list_lookup_fmap in Hj0.
  destruct (take 1000 clean !! j); simpl in Hj0; [| done]. by injection Hj0 as <-.
Qed.

Lemma total_bounded (tr : gmap string nat) n :
  (∀ l v, tr !! l = Some v → v ≤ n) → total tr ≤ n * size tr.
Proof.
  unfold total.
  apply (map_fold_weak_ind
    (λ r (m : gmap string nat), (∀ l v, m !! l = Some v → v ≤ n) → r ≤ n * size m)).
  - intros _. rewrite map_size_empty. lia.
  - intros l v m r Hl IH Hall. rewrite map_size_insert_None by done.
    assert (v ≤ n) by (apply (Hall l); apply lookup_insert_eq).
    assert (r ≤ n * size m).
    { apply IH. intros l' v' Hl'. apply (Hall l').
      rewrite lookup_insert_ne; [done |]. intros ->. congruence. }
    lia.
Qed.

Lemma init_tracker_size LABELS : size (init_tracker LABELS) ≤ length LABELS.
Proof.
  unfold init_tracker. induction LABELS as [|l L IH].
  - by rewrite fmap_nil, list_to_map_nil, map_size_empty.
  - rewrite fmap_cons, list_to_map_cons, map_size_insert, length_cons.
    destruct (_ !! l); simpl; lia.
Qed.

Lemma init_tracker_total LABELS : total (init_tracker LABELS) = 0.
Proof.
  pose proof (total_bounded (init_tracker LABELS) 0) as H.
  assert (total (init_tracker LABELS) ≤ 0 * size (init_tracker LABELS)); [| lia].
  apply H. intros l v Hl. rewrite init_tracker_lookup in Hl.
  case_decide; [| done]. injection Hl as <-. lia.
Qed.

Lemma length_collect (tr : gmap string nat) (store : list Example) refs :
  Forall (λ r, r < length store) refs →
  length (collect (tr, store, refs)) = length refs.
Proof.
  unfold collect. induction 1 as [|r refs Hr _ IH]; [done |].
  cbn [omap list_omap]. destruct (lookup_lt_is_Some_2 store r Hr) as [ex ->].
  simpl. f_equal. exact IH.
Qed.

(** X2. Every yield takes one quota slot: the entries returned by
    [get_site_stream] are as many as the counters add up to, hence at
    most 50 for each configured label. *)
Theorem yields_bounded LABELS THRESHOLDS model clean tr store refs :
  get_site_stream_run LABELS THRESHOLDS model clean = Some (tr, store, refs) →
  length (collect (tr, store, refs)) = total tr ∧
  total tr ≤ 50 * length LABELS.
Proof.
  intros Hrun.
  pose proof (get_site_stream_run_facts _ _ _ _ _ _ _ Hrun)
    as (Hd & _ & Hr & Hc).
  unfold get_site_stream_run, upper_limit_run in Hrun.
  apply stream_loop_yields in Hrun as [Ht _].
  rewrite init_tracker_total in Ht. split.
  - rewrite length_collect by done. lia.
  - change 50 with limit. etransitivity.
    + apply (total_bounded tr limit). intros l v Hl.
      destruct (Hc l) as [_ Hlim]. unfold cnt in Hlim. by rewrite Hl in Hlim.
    + apply Nat.mul_le_mono_l. etransitivity; [| apply (init_tracker_size LABELS)].
      rewrite <- !size_dom. apply Nat.eq_le_incl. f_equal.
      apply set_eq. intros l. by rewrite Hd, init_tracker_dom.
Qed.

Lemma items_loop_lookups THRESHOLDS items v v' :
  items_loop THRESHOLDS items v = Some v' →
  dom v'.1.1 = dom v.1.1 ∧
  ∀ l p, (l, p) ∈ items → l ∈ dom v.1.1 → is_Some (THRESHOLDS !! l).
Proof.
  revert v. induction items as [|[name proba] items IH]; intros v; simpl.
  - intros [= <-]. split; [done |]. by intros l p ?%elem_of_nil.
  - destruct (item_step THRESHOLDS v (name, proba)) as [u|] eqn:Hu; simpl;
      [| done].
    intros Hl. destruct (IH u Hl) as [Hd Hall].
    assert (Hdu : dom u.1.1 = dom v.1.1).
    { by apply (item_step_rel THRESHOLDS [[(name, proba)]] _ [(name, proba)])
        in Hu as (_ & _ & Hdu & _); [| left | left]. }
    split; [congruence |].
    intros l p [[= -> ->] | Hin]%elem_of_cons Hdom.
    + destruct v as [[tr ex] y]. simpl in *.
      apply elem_of_dom in Hdom as [n Hn]. rewrite Hn in Hu.
      destruct (THRESHOLDS !! name); [by eexists | done].
    + apply (Hall l p Hin). by rewrite Hdu.
Qed.

Lemma preds_loop_lookups THRESHOLDS ps v v' :
  preds_loop THRESHOLDS ps v = Some v' →
  ∀ items l p, items ∈ ps → (l, p) ∈ items → l ∈ dom v.1.1 →
    is_Some (THRESHOLDS !! l).
Proof.
  revert v. induction ps as [|items0 ps IH]; intros v; simpl.
  - intros _ items l p ?%elem_of_nil. done.
  - destruct (items_loop THRESHOLDS items0 v) as [u|] eqn:Hu; simpl; [| done].
    intros Hl. apply items_loop_lookups in Hu as [Hd Hall].
    intros items l p [-> | Hin]%elem_of_cons Hlp Hdom.
    + by apply (Hall l p).
    + apply (IH u Hl items l p Hin Hlp). by rewrite Hd.
Qed.

(** X3. Section assignment raises no [KeyError] when every configured
    label has a threshold. *)
Theorem thresholds_suffice LABELS THRESHOLDS model clean :
  (∀ l, l ∈ LABELS → is_Some (THRESHOLDS !! l)) →
  is_Some (get_site_stream LABELS THRESHOLDS model clean).
Proof.
  intros Hth. unfold get_site_stream, get_site_stream_run, upper_limit_run.
  apply fmap_is_Some, stream_loop_total.
  intros l Hl%init_tracker_dom. by apply Hth.
Qed.

(** X4. When section assignment returns, every configured label that a
    pulled record predicts has a threshold: [THRESHOLDS[name]] is looked
    up for each prediction of a tracked name, full quota or not. *)
Theorem success_needs_thresholds LABELS THRESHOLDS model clean tr store refs
    ex items l p :
  get_site_stream_run LABELS THRESHOLDS model clean = Some (tr, store, refs) →
  ex ∈ store → items ∈ preds ex → (l, p) ∈ items → l ∈ LABELS →
  is_Some (THRESHOLDS !! l).
Proof.
  unfold get_site_stream_run, upper_limit_run. intros Hrun Hex Hit Hlp Hl.
  apply init_tracker_dom in Hl. revert Hl Hex.
  refine (stream_loop_rect' THRESHOLDS
    (λ i s tr0 r, l ∈ dom tr0 → ex ∈ r.1.2 → is_Some (THRESHOLDS !! l))
    _ _ _ _ _ _ _ Hrun); clear Hrun; simpl.
  - by intros _ _ _ ?%elem_of_nil.
  - intros i ex0 rest tr1 tr' ex' y Hv _ Hdom ->%list_elem_of_singleton.
    pose proof (visit_rel _ _ _ _ _ _ Hv) as (_ & Hp & _). simpl in Hp.
    unfold visit in Hv. rewrite <- Hp in Hv.
    by apply (preds_loop_lookups _ _ _ _ Hv items l p).
  - intros i ex0 rest tr1 tr' ex' y tr'' store0 refs0 Hv _ _ IH Hdom
      [-> | Hin]%elem_of_cons.
    + pose proof (visit_rel _ _ _ _ _ _ Hv) as (_ & Hp & _). simpl in Hp.
      unfold visit in Hv. rewrite <- Hp in Hv.
      by apply (preds_loop_lookups _ _ _ _ Hv items l p).
    + apply IH; [| done].
      apply visit_rel in Hv as (_ & _ & Hd & _). simpl in Hd. by rewrite Hd.
Qed.

Lemma stream_loop_app THRESHOLDS pre post i tr tr1 st1 r1 :
  stream_loop THRESHOLDS i pre tr = Some (tr1, st1, r1) →
  all_full tr1 = false →
  stream_loop THRESHOLDS i (pre ++ post) tr
  = (stream_loop THRESHOLDS (i + length pre) post tr1
       ≫= λ r, Some (r.1.1, st1 ++ r.1.2, r1 ++ r.2)).
Proof.
  revert i tr st1 r1. induction pre as [|ex rest IH]; intros i tr st1 r1; simpl.
  - intros [= <- <- <-] _. rewrite Nat.add_0_r.
    by destruct (stream_loop THRESHOLDS i post tr) as [[[? ?] ?]|].
  - destruct (visit THRESHOLDS tr ex) as [[[tr' ex'] y]|]; simpl; [| done].
    destruct (all_full tr') eqn:Hf.
    + intros [= <- <- <-] Hnf. congruence.
    + destruct (stream_loop THRESHOLDS (S i) rest tr')
        as [[[tr'' store] refs]|] eqn:Hrest; simpl; [| done].
      intros [= <- <- <-] Hnf. rewrite (IH _ _ _ _ Hrest Hnf).
      replace (i + S (length rest)) with (S i + length rest) by lia.
      destruct (stream_loop THRESHOLDS (S i + length rest) post tr'')
        as [[[tr2 st2] r2]|]; simpl; [| done].
      by rewrite app_assoc.
Qed.

(** X5. Section assignment works record by record: as long as some
    quota is open after the records [pre], the run over [pre ++ post] is
    the run over [pre] carried on over [post] from the tracker [pre]
    left, so what is pulled and yielded for [pre] stays as it is. *)
Theorem run_carries_on THRESHOLDS LABELS pre post tr1 st1 r1 :
  upper_limit_run THRESHOLDS LABELS pre = Some (tr1, st1, r1) →
  all_full tr1 = false →
  upper_limit_run THRESHOLDS LABELS (pre ++ post)
  = (stream_loop THRESHOLDS (length pre) post tr1
       ≫= λ r, Some (r.1.1, st1 ++ r.1.2, r1 ++ r.2)).
Proof.
  unfold upper_limit_run. intros Hrun Hnf.
  by rewrite (stream_loop_app _ _ _ _ _ _ _ _ Hrun Hnf).
Qed.

End site_extras.

(** ** Dictionaries in insertion order: keys *)

Section pydict_keys.
Context {V : Type}.
Implicit Types d : list (string * V).

Lemma pydict_get_Some k d v : PyDict.get k d = Some v → (k, v) ∈ d.
Proof.
  induction d as [|[k0 v0] d IH]; simpl; [done |].
  case_decide; [intros [= ->]; subst; by left | intros ?; right; by apply IH].
Qed.

Lemma pydict_get_None k d : PyDict.get k d = None ↔ k ∉ d.*1.
Proof.
  induction d as [|[k0 v0] d IH]; simpl.
  - split; [by intros _ ?%elem_of_nil | done].
  - rewrite not_elem_of_cons. case_decide as Hk.
    + split; [done | by intros [? _]].
    + rewrite IH. split; [by intros ? | by intros [_ ?]].
Qed.

Lemma pydict_elem_get k d v : NoDup d.*1 → (k, v) ∈ d → PyDict.get k d = Some v.
Proof.
  induction d as [|[k0 v0] d IH]; simpl; [by intros _ ?%elem_of_nil |].
  intros [Hk0 Hnd]%NoDup_cons [[= -> ->] | Hin]%elem_of_cons.
  - by rewrite decide_True.
  - rewrite decide_False; [by apply IH |]. intros ->. apply Hk0.
    apply list_elem_of_fmap. by exists (k0, v).
Qed.

Lemma pydict_set_keys k v d :
  (PyDict.set k v d).*1 = if decide (k ∈ d.*1) then d.*1 else d.*1 ++ [k].
Proof.
  induction d as [|[k0 v0] d IH]; cbn [PyDict.set].
  - rewrite decide_False; [done | by intros ?%elem_of_nil].
  - destruct (decide (k = k0)) as [->|Hk]; rewrite !fmap_cons; cbn [fst].
    + rewrite decide_True; [done | by left].
    + rewrite IH. destruct (decide (k ∈ d.*1)) as [Hin|Hin].
      * rewrite decide_True; [done | by right].
      * rewrite decide_False; [done |].
        intros [? | ?]%elem_of_cons; congruence.
Qed.

Lemma pydict_set_NoDup k v d : NoDup d.*1 → NoDup (PyDict.set k v d).*1.
Proof.
  intros Hnd. rewrite pydict_set_keys. case_decide; [done |].
  apply NoDup_app. split_and!; [done | | apply NoDup_singleton].
  intros x Hx ->%list_elem_of_singleton. done.
Qed.

End pydict_keys.

(** ** Deduplication on streams without clashes *)

Section dedup_more.
Import Utils.
Context {A K : Type} `{EqDecision K}.
Variable key : A → K.

Lemma sublist_mem (l k : list A) x : sublist l k → x ∈ l → x ∈ k.
Proof.
  induction 1 as [|a l k _ IH|a l k _ IH]; [done | |].
  - intros [-> | Hx]%elem_of_cons; [by left | right; by apply IH].
  - intros Hx. right. by apply IH.
Qed.

Lemma dedup_from_covers seen s x :
  x ∈ s → key x ∈ seen ∨ ∃ y, y ∈ dedup_from key seen s ∧ key y = key x.
Proof.
  revert seen. induction s as [|a s IH]; intros seen; simpl.
  - by intros ?%elem_of_nil.
  - intros [-> | Hx]%elem_of_cons.
    + destruct (decide (key a ∈ seen)); [by left |].
      right. exists a. split; [by left | done].
    + destruct (decide (key a ∈ seen)) as [Ha|Ha]; [by apply IH |].
      destruct (IH (key a :: seen) Hx) as [[E | Hs]%elem_of_cons | (y & Hy & E)].
      * right. exists a. split; [by left | done].
      * by left.
      * right. exists y. split; [by right | done].
Qed.

Lemma dedup_stream_elem_of s x :
  (∀ y z, y ∈ s → z ∈ s → key y = key z → y = z) →
  x ∈ dedup_stream key s ↔ x ∈ s.
Proof.
  intros Hinj. split.
  - apply sublist_mem, dedup_from_sublist.
  - intros Hx. destruct (dedup_from_covers [] s x Hx)
      as [?%elem_of_nil | (y & Hy & E)]; [done |].
    assert (y = x) as <-; [| done].
    apply Hinj; [| done | done].
    exact (sublist_mem _ _ _ (dedup_from_sublist key [] s) Hy).
Qed.

Lemma NoDup_fmap_eq {B} (f : A → B) (l : list A) x y :
  NoDup (f <$> l) → x ∈ l → y ∈ l → f x = f y → x = y.
Proof.
  induction l as [|a l IH]; [by intros _ ?%elem_of_nil |].
  rewrite fmap_cons. intros [Ha Hnd]%NoDup_cons.
  intros [-> | Hx]%elem_of_cons [-> | Hy]%elem_of_cons E; [done | | | by apply IH].
  - exfalso. apply Ha. rewrite E. apply list_elem_of_fmap. by exists y.
  - exfalso. apply Ha. rewrite <- E. apply list_elem_of_fmap. by exists x.
Qed.

End dedup_more.

(** ** The content assembler: buckets *)

Section assembler_facts.
Import Utils Site SiteSpec Assembler AssemblerSpec.
Variable THRESHOLDS : gmap string Q.
Variable show_proba : Q → string.

Lemma init_sections_snoc cfg c :
  init_sections (cfg ++ [c])
  = PyDict.set (sec_label c) {| config := c; content := [] |}
      (init_sections cfg).
Proof. unfold init_sections. by rewrite foldl_snoc. Qed.

Lemma init_sections_get cfg k :
  PyDict.get k (init_sections cfg)
  = (λ c, {| config := c; content := [] |})
      <$> last (filter (λ c, sec_label c = k) cfg).
Proof.
  induction cfg as [|c cfg IH] using rev_ind; [done |].
  rewrite init_sections_snoc, pydict_get_set, filter_app, filter_cons, filter_nil.
  destruct (decide (k = sec_label c)) as [->|Hk].
  - rewrite decide_True by done. by rewrite last_snoc.
  - rewrite decide_False by congruence. by rewrite app_nil_r.
Qed.

Lemma init_sections_ok cfg : buckets_ok (init_sections cfg).
Proof.
  assert (Hnd : NoDup (init_sections cfg).*1).
  { induction cfg as [|c cfg IH] using rev_ind; [constructor |].
    rewrite init_sections_snoc. by apply pydict_set_NoDup. }
  split; [done |]. intros k s Hin.
  apply (pydict_elem_get _ _ _ Hnd) in Hin. rewrite init_sections_get in Hin.
  destruct (last _) as [c|] eqn:Hc; simpl in Hin; [| done].
  injection Hin as <-. simpl.
  apply last_Some_elem_of, list_elem_of_filter in Hc. apply Hc.
Qed.

Lemma bucket_content_set k section s buckets :
  bucket_content k (PyDict.set section s buckets)
  = if decide (k = section) then content s else bucket_content k buckets.
Proof. unfold bucket_content. rewrite pydict_get_set. by case_decide. Qed.

Lemma buckets_ok_set section bucket e buckets :
  buckets_ok buckets → PyDict.get section buckets = Some bucket →
  buckets_ok (PyDict.set section
                {| config := config bucket; content := content bucket ++ [e] |}
                buckets) ∧
  (PyDict.set section
     {| config := config bucket; content := content bucket ++ [e] |}
     buckets).*1 = buckets.*1.
Proof.
  intros [Hnd Hlab] Hget.
  assert (Hkeys : (PyDict.set section
     {| config := config bucket; content := content bucket ++ [e] |}
     buckets).*1 = buckets.*1).
  { rewrite pydict_set_keys, decide_True; [done |].
    apply list_elem_of_fmap. exists (section, bucket).
    split; [done | by apply pydict_get_Some]. }
  split; [| done]. split; [by rewrite Hkeys |].
  intros k s [Hin | [-> ->]]%pydict_elem_of_set; [by apply Hlab |].
  simpl. apply Hlab. by apply pydict_get_Some.
Qed.

(** Placing one item: every one of its sections renders and has a
    bucket, the keys stay, and each bucket grows by the item's entries
    for it. *)
Lemma place_item_facts it secs buckets buckets' :
  place_item THRESHOLDS show_proba it secs buckets = Some buckets' →
  buckets_ok buckets →
  buckets_ok buckets' ∧ buckets'.*1 = buckets.*1 ∧
  (∀ section, section ∈ secs →
     is_Some (render_html THRESHOLDS show_proba it section) ∧
     section ∈ buckets.*1) ∧
  ∀ k, bucket_content k buckets'
       = bucket_content k buckets
           ++ entries_for THRESHOLDS show_proba it k secs.
Proof.
  revert buckets. induction secs as [|section secs IH]; intros buckets;
    cbn [place_item].
  - intros [= <-] Hok. split_and!; [done | done | |].
    + by intros ? ?%elem_of_nil.
    + intros k. by rewrite app_nil_r.
  - destruct (render_html THRESHOLDS show_proba it section) as [h|] eqn:Hh;
      cbn [mbind option_bind]; [| done].
    destruct (PyDict.get section buckets) as [bucket|] eqn:Hb;
      cbn [mbind option_bind]; [| done].
    intros Hp Hok.
    destruct (buckets_ok_set section bucket
                {| item := it; html := h; entry_categories := [] |}
                buckets Hok Hb) as [Hok1 Hkeys1].
    destruct (IH _ Hp Hok1) as (Hok' & Hkeys' & Hsecs & Hcont).
    assert (Hin : section ∈ buckets.*1).
    { apply list_elem_of_fmap. exists (section, bucket).
      split; [done | by apply pydict_get_Some]. }
    split_and!; [done | congruence | |].
    + intros s [-> | Hs]%elem_of_cons.
      * split; [by rewrite Hh | done].
      * destruct (Hsecs s Hs) as [? ?]. split; [done | by rewrite <- Hkeys1].
    + intros k. rewrite Hcont, bucket_content_set.
      change (entries_for THRESHOLDS show_proba it k (section :: secs))
        with (from_option (λ e, e :: entries_for THRESHOLDS show_proba it k secs)
                (entries_for THRESHOLDS show_proba it k secs)
                (if decide (section = k)
                 then (λ h, {| item := it; html := h; entry_categories := [] |})
                        <$> render_html THRESHOLDS show_proba it section
                 else None)).
      destruct (decide (k = section)) as [->|Hk].
      * rewrite decide_True by done. rewrite Hh. simpl.
        unfold bucket_content. rewrite Hb. simpl. by rewrite <- app_assoc.
      * rewrite decide_False by congruence. done.
Qed.

Lemma place_all_facts stream buckets buckets' :
  place_all THRESHOLDS show_proba stream buckets = Some buckets' →
  buckets_ok buckets →
  buckets_ok buckets' ∧ buckets'.*1 = buckets.*1 ∧
  (∀ it l, it ∈ stream → carries l it →
     is_Some (render_html THRESHOLDS show_proba it l) ∧ l ∈ buckets.*1) ∧
  ∀ k e, e ∈ bucket_content k buckets' ↔
         e ∈ bucket_content k buckets ∨
         ∃ it, it ∈ stream ∧ carries k it ∧ item e = it ∧
               render_html THRESHOLDS show_proba it k = Some (html e) ∧
               entry_categories e = [].
Proof.
  revert buckets. induction stream as [|it stream IH]; intros buckets;
    cbn [place_all].
  - intros [= <-] Hok. split_and!; [done | done | |].
    + by intros ? ? ?%elem_of_nil.
    + intros k e. split; [by left |].
      intros [? | (? & ?%elem_of_nil & _)]; done.
  - destruct (sections it) as [secs|] eqn:Hsecs; cbn [mbind option_bind];
      [| done].
    destruct (place_item THRESHOLDS show_proba it secs buckets)
      as [buckets1|] eqn:Hp; cbn [mbind option_bind]; [| done].
    intros Hrest Hok.
    destruct (place_item_facts _ _ _ _ Hp Hok) as (Hok1 & Hk1 & Hs1 & Hc1).
    destruct (IH _ Hrest Hok1) as (Hok' & Hk' & Hs' & Hc').
    split_and!; [done | congruence | |].
    + intros x l [-> | Hx]%elem_of_cons Hl.
      * apply Hs1. unfold carries in Hl. by rewrite Hsecs in Hl.
      * destruct (Hs' x l Hx Hl) as [? ?]. split; [done | by rewrite <- Hk1].
    + intros k e. rewrite Hc', Hc1, elem_of_app. split.
      * intros [[He | He] | (x & Hx & Hrestx)]; [by left | | right].
        -- right. exists it. unfold entries_for in He.
           apply list_elem_of_omap in He as (section & Hsec & He).
           case_decide as E; [subst section | done].
           destruct (render_html _ _ it k) as [h|] eqn:Hh; simpl in He; [| done].
           injection He as <-. simpl. split_and!; try done; [by left |].
           unfold carries. by rewrite Hsecs.
        -- exists x. split; [by right | done].
      * intros [He | (x & [-> | Hx]%elem_of_cons & Hcar & Hit & Hh & Hcat)].
        -- left. by left.
        -- left. right. unfold entries_for. apply list_elem_of_omap.
           exists k. unfold carries in Hcar. rewrite Hsecs in Hcar.
           split; [done |]. rewrite decide_True by done. rewrite Hh. simpl.
           f_equal. destruct e. simpl in *. by subst.
        -- right. by exists x.
Qed.

End assembler_facts.

Section assembler_extras.
Import Utils Site SiteSpec SiteSpec2 Assembler AssemblerSpec.
Variable THRESHOLDS : gmap string Q.
Variable show_proba : Q → string.

Lemma place_item_config it secs buckets buckets' k :
  place_item THRESHOLDS show_proba it secs buckets = Some buckets' →
  config <$> PyDict.get k buckets' = config <$> PyDict.get k buckets.
Proof.
  revert buckets. induction secs as [|section secs IH]; intros buckets;
    cbn [place_item].
  - by intros [= <-].
  - destruct (render_html THRESHOLDS show_proba it section) as [h|];
      cbn [mbind option_bind]; [| done].
    destruct (PyDict.get section buckets) as [bucket|] eqn:Hb;
      cbn [mbind option_bind]; [| done].
    intros Hp. rewrite (IH _ Hp), pydict_get_set.
    case_decide; [subst; by rewrite Hb | done].
Qed.

Lemma place_all_config stream buckets buckets' k :
  place_all THRESHOLDS show_proba stream buckets = Some buckets' →
  config <$> PyDict.get k buckets' = config <$> PyDict.get k buckets.
Proof.
  revert buckets. induction stream as [|it stream IH]; intros buckets;
    cbn [place_all].
  - by intros [= <-].
  - destruct (sections it) as [secs|]; cbn [mbind option_bind]; [| done].
    destruct (place_item THRESHOLDS show_proba it secs buckets)
      as [buckets1|] eqn:Hp; cbn [mbind option_bind]; [| done].
    intros Hrest. rewrite (IH _ Hrest). by eapply place_item_config.
Qed.

Lemma init_sections_keys cfg l :
  l ∈ (init_sections cfg).*1 ↔ l ∈ sec_label <$> cfg.
Proof.
  destruct (PyDict.get l (init_sections cfg)) as [s|] eqn:Hg.
  - split; intros _.
    + rewrite init_sections_get in Hg.
      destruct (last _) as [c|] eqn:Hc; [| done].
      apply last_Some_elem_of, list_elem_of_filter in Hc as [<- Hc].
      apply list_elem_of_fmap. by exists c.
    + apply pydict_get_Some in Hg. apply list_elem_of_fmap. by exists (l, s).
  - pose proof Hg as Hn. apply pydict_get_None in Hn.
    rewrite init_sections_get in Hg. split; [done |].
    intros (c & -> & Hc)%list_elem_of_fmap. exfalso.
    destruct (last (filter (λ c0, sec_label c0 = sec_label c) cfg)) eqn:Hl;
      [done |].
    apply last_None in Hl.
    assert (c ∈ filter (λ c0, sec_label c0 = sec_label c) cfg)
      by (by apply list_elem_of_filter).
    rewrite Hl in H. by apply elem_of_nil in H.
Qed.

(** What [assemble] returns, bucket by bucket. *)
Lemma assemble_inv cfg stream secs :
  assemble THRESHOLDS show_proba cfg stream = Some secs →
  ∃ buckets,
    place_all THRESHOLDS show_proba
      (dedup_stream (λ ex, abstract (base ex)) stream) (init_sections cfg)
    = Some buckets ∧
    secs = map (λ kv, finalize kv.2) buckets.
Proof.
  unfold assemble. intros H.
  apply bind_Some in H as (buckets & Hp & [= <-]). by exists buckets.
Qed.

(** X6. [get_site_content] returns one section for each distinct label
    of [CONFIG.sections], whatever the stream holds; where a label is
    configured more than once, the section carries the last entry. *)
Theorem sections_follow_config LABELS cfg model clean secs :
  get_site_content THRESHOLDS show_proba LABELS cfg model clean = Some secs →
  NoDup ((λ s, sec_label (config s)) <$> secs) ∧
  (∀ c, c ∈ cfg → ∃ s, s ∈ secs ∧ sec_label (config s) = sec_label c) ∧
  (∀ s, s ∈ secs →
     last (filter (λ c, sec_label c = sec_label (config s)) cfg)
     = Some (config s)).
Proof.
  unfold get_site_content. intros H.
  apply bind_Some in H as (stream & _ & H).
  apply assemble_inv in H as (buckets & Hp & ->).
  destruct (place_all_facts _ _ _ _ _ Hp (init_sections_ok cfg))
    as ([Hnd Hlab] & Hkeys & _ & _).
  assert (Hl : (λ s, sec_label (config s)) <$> map (λ kv, finalize kv.2) buckets
               = buckets.*1).
  { change (map (λ kv, finalize kv.2) buckets)
      with ((λ kv, finalize kv.2) <$> buckets).
    rewrite <- list_fmap_compose. apply list_fmap_ext.
    intros i [k s] Hi. simpl. apply Hlab. by eapply list_elem_of_lookup_2. }
  split_and!.
  - by rewrite Hl.
  - intros c Hc.
    assert (Hin : sec_label c ∈ buckets.*1).
    { rewrite Hkeys. apply init_sections_keys, list_elem_of_fmap. by exists c. }
    apply list_elem_of_fmap in Hin as ([k s] & Hk & Hin). simpl in Hk. subst k.
    exists (finalize s). split.
    + apply (list_elem_of_fmap_2 (λ kv, finalize kv.2) _ _ Hin).
    + simpl. by apply Hlab.
  - intros s' ([k s] & -> & Hin)%list_elem_of_fmap. simpl.
    rewrite (Hlab k s Hin).
    pose proof (place_all_config _ _ _ k Hp) as Hc.
    rewrite (pydict_elem_get _ _ _ Hnd Hin), init_sections_get in Hc.
    simpl in Hc. destruct (last _) as [c|]; simpl in Hc; [| done].
    by injection Hc as ->.
Qed.

Lemma collected_facts LABELS model clean out it :
  get_site_stream LABELS THRESHOLDS model clean = Some out → it ∈ out →
  ∃ secs, sections it = Some secs ∧ (∀ l, l ∈ secs → l ∈ LABELS) ∧
          preds it = model (sentences (base it)).
Proof.
  unfold get_site_stream. intros Hout Hit.
  apply fmap_Some in Hout as ([[tr store] refs] & Hrun & ->).
  apply elem_of_collect in Hit as (j & Hj & Hst). simpl in *.
  pose proof (get_site_stream_run_facts _ _ _ _ _ _ _ Hrun) as (_ & Hfacts & _).
  destruct (Hfacts j it Hst) as (a & _ & <- & Hp & Hcar).
  unfold get_site_stream_run, upper_limit_run in Hrun.
  pose proof (stream_loop_facts _ _ _ _ _ _ _ Hrun) as (_ & Hf & _).
  destruct (Forall2_lookup_r _ _ _ _ _ Hf Hst) as (ex0 & Hj0 & _).
  apply lookup_take_Some in Hj0 as [Hj0 _].
  destruct (stream_loop_yields _ _ _ _ _ _ _ Hrun) as [_ Hall].
  destruct (Hall j ex0 it Hj0 Hst) as [Hy _].
  destruct (Hy Hj) as (secs & Hsecs & _). exists secs. split_and!; [done | | done].
  intros l Hl. apply Hcar. unfold carries. by rewrite Hsecs.
Qed.

(** X7. A section's content holds exactly the entries of the records
    that come first for their abstract in the assigned stream and carry
    the section's label, each with the html rendered for that section
    and with empty [categories]. *)
Theorem content_membership LABELS cfg model clean stream secs s e :
  get_site_stream LABELS THRESHOLDS model clean = Some stream →
  get_site_content THRESHOLDS show_proba LABELS cfg model clean = Some secs →
  s ∈ secs →
  e ∈ content s ↔
  item e ∈ dedup_stream (λ ex, abstract (base ex)) stream ∧
  carries (sec_label (config s)) (item e) ∧
  render_html THRESHOLDS show_proba (item e) (sec_label (config s))
    = Some (html e) ∧
  entry_categories e = [].
Proof.
  unfold get_site_content. intros Hs H Hin. rewrite Hs in H. simpl in H.
  apply assemble_inv in H as (buckets & Hp & ->).
  set (site_stream := dedup_stream (λ ex, abstract (base ex)) stream) in *.
  destruct (place_all_facts _ _ _ _ _ Hp (init_sections_ok cfg))
    as ([Hnd Hlab] & _ & _ & Hc).
  apply list_elem_of_fmap in Hin as ([k b] & -> & Hin). simpl.
  rewrite (Hlab k b Hin).
  assert (Hb : content b = bucket_content k buckets).
  { unfold bucket_content. by rewrite (pydict_elem_get _ _ _ Hnd Hin). }
  assert (Hmem : ∀ x, x ∈ content b ↔
            item x ∈ site_stream ∧ carries k (item x) ∧
            render_html THRESHOLDS show_proba (item x) k = Some (html x) ∧
            entry_categories x = []).
  { intros x. rewrite Hb, Hc. unfold bucket_content at 1.
    rewrite init_sections_get. split.
    - intros [Hx | (it & Hit & Hcar & <- & Hh & Hcat)]; [| done].
      destruct (last _); simpl in Hx; by apply elem_of_nil in Hx.
    - intros (Hit & Hcar & Hh & Hcat). right. by exists (item x). }
  rewrite reverse_Permutation, (sorted_perm entry_created).
  rewrite dedup_stream_elem_of; [apply Hmem |].
  intros x y [Hx1 [_ [Hx2 Hx3]]]%Hmem [Hy1 [_ [Hy2 Hy3]]]%Hmem E.
  assert (item x = item y) as Hxy.
  { apply (NoDup_fmap_eq (λ ex, abstract (base ex)) site_stream);
      [apply dedup_stream_NoDup | done | done | exact E]. }
  destruct x, y. simpl in *. subst. congruence.
Qed.

Lemma render_loop_keys section pairs text :
  is_Some (render_loop THRESHOLDS show_proba section pairs text) ↔
  pairs = [] ∨
  (is_Some (THRESHOLDS !! section) ∧
   Forall (λ p, is_Some (PyDict.get section p.2)) pairs).
Proof.
  revert text. induction pairs as [|[sent pred] pairs IH]; intros text;
    cbn [render_loop].
  - split; [by left | by eexists].
  - destruct (PyDict.get section pred) as [proba|] eqn:Hg;
      cbn [mbind option_bind].
    + destruct (THRESHOLDS !! section) as [t|] eqn:Ht; cbn [mbind option_bind].
      * rewrite IH. split.
        -- intros [-> | [_ Hall]]; right; (split; [by eexists |]);
             constructor; try done; simpl; by rewrite Hg.
        -- intros [? | [_ [_ Hall]%Forall_cons]]; [done |]. right.
           split; [by eexists | done].
      * split; [by intros [? ?] |]. intros [? | [[? ?] _]]; done.
    + split; [by intros [? ?] |].
      intros [? | [_ [[? Hx] _]%Forall_cons]]; [done |].
      simpl in Hx. congruence.
Qed.

End assembler_extras.

Section assembler_failures.
Import Utils Site SiteSpec Assembler AssemblerSpec.
Variable THRESHOLDS : gmap string Q.
Variable show_proba : Q → string.

Lemma render_html_keys it section :
  is_Some (render_html THRESHOLDS show_proba it section) ↔
  zip (sentences (base it)) (preds it) = [] ∨
  (is_Some (THRESHOLDS !! section) ∧
   Forall (λ p, is_Some (PyDict.get section p.2))
          (zip (sentences (base it)) (preds it))).
Proof.
  rewrite <- (render_loop_keys THRESHOLDS show_proba section _ "").
  unfold render_html. destruct (render_loop _ _ _ _ _); simpl; split;
    intros [? ?]; by eexists.
Qed.

Lemma place_item_total it secs buckets :
  (∀ l, l ∈ secs →
     is_Some (render_html THRESHOLDS show_proba it l) ∧ l ∈ buckets.*1) →
  ∃ buckets', place_item THRESHOLDS show_proba it secs buckets = Some buckets' ∧
              buckets'.*1 = buckets.*1.
Proof.
  revert buckets. induction secs as [|section secs IH]; intros buckets Hall;
    cbn [place_item]; [by eexists |].
  destruct (Hall section) as [[h ->] Hin]; [by left |]. cbn [mbind option_bind].
  destruct (PyDict.get section buckets) as [bucket|] eqn:Hb.
  - cbn [mbind option_bind].
    assert (Hkeys : ∀ v, (PyDict.set section v buckets).*1 = buckets.*1).
    { intros v. by rewrite pydict_set_keys, decide_True. }
    destruct (IH (PyDict.set section
                    {| config := config bucket;
                       content := content bucket
                         ++ [{| item := it; html := h; entry_categories := [] |}] |}
                    buckets)) as (b' & -> & Hk').
    + intros l Hl. rewrite Hkeys. apply Hall. by right.
    + exists b'. split; [done |]. by rewrite Hk', Hkeys.
  - by apply pydict_get_None in Hb.
Qed.

Lemma place_all_total stream buckets :
  (∀ it, it ∈ stream →
     ∃ secs, sections it = Some secs ∧
       ∀ l, l ∈ secs →
         is_Some (render_html THRESHOLDS show_proba it l) ∧ l ∈ buckets.*1) →
  is_Some (place_all THRESHOLDS show_proba stream buckets).
Proof.
  revert buckets. induction stream as [|it stream IH]; intros buckets Hall;
    cbn [place_all]; [by eexists |].
  destruct (Hall it) as (secs & -> & Hsecs); [by left |].
  cbn [mbind option_bind].
  destruct (place_item_total it secs buckets Hsecs) as (b1 & -> & Hk1).
  cbn [mbind option_bind]. apply IH. intros x Hx.
  destruct (Hall x) as (sx & Hsx & Hlx); [by right |].
  exists sx. split; [done |]. intros l Hl. rewrite Hk1. by apply Hlx.
Qed.

(** X8. [get_site_content] returns, raising no [KeyError], when every
    configured label has a threshold and a section of its own in
    [CONFIG.sections] and the classifier scores every label in every
    mapping it returns. *)
Theorem site_content_returns LABELS cfg model clean :
  (∀ l, l ∈ LABELS → is_Some (THRESHOLDS !! l)) →
  (∀ l, l ∈ LABELS → l ∈ sec_label <$> cfg) →
  (∀ ss ps l, ps ∈ model ss → l ∈ LABELS → is_Some (PyDict.get l ps)) →
  is_Some (get_site_content THRESHOLDS show_proba LABELS cfg model clean).
Proof.
  intros Hth Hcfg Hmodel. unfold get_site_content.
  destruct (get_site_stream LABELS THRESHOLDS model clean) as [stream|] eqn:Hs.
  - cbn [mbind option_bind]. unfold assemble.
    match goal with
    | |- is_Some (?m ≫= _) => assert (Hpl : is_Some m)
    end; [| destruct Hpl as [b ->]; by eexists].
    apply place_all_total. intros it Hit.
    assert (Hin : it ∈ stream).
    { exact (sublist_mem _ _ _ (dedup_from_sublist _ [] stream) Hit). }
    destruct (collected_facts THRESHOLDS _ _ _ _ _ Hs Hin)
      as (secs & Hsecs & Hlab & Hp).
    exists secs. split; [done |]. intros l Hl. split.
    + apply render_html_keys. right. split; [by apply Hth, Hlab |].
      apply Forall_forall. intros [sent pred] Hz. simpl.
      apply elem_of_zip_r in Hz. rewrite Hp in Hz.
      by apply (Hmodel _ _ _ Hz), Hlab.
    + by apply init_sections_keys, Hcfg, Hlab.
  - exfalso. apply eq_None_not_Some in Hs. apply Hs.
    unfold get_site_stream, get_site_stream_run, upper_limit_run.
    apply fmap_is_Some, stream_loop_total.
    intros l Hl%init_tracker_dom. by apply Hth.
Qed.

(** X9. When [get_site_content] returns, every label carried by a
    record it places is the label of a configured section, and every
    mapping zipped with a sentence of that record has the label as a
    key; otherwise [sections[section]] or [pred[section]] raises. *)
Theorem site_content_needs LABELS cfg model clean stream secs it l :
  get_site_stream LABELS THRESHOLDS model clean = Some stream →
  get_site_content THRESHOLDS show_proba LABELS cfg model clean = Some secs →
  it ∈ dedup_stream (λ ex, abstract (base ex)) stream →
  carries l it →
  l ∈ sec_label <$> cfg ∧
  Forall (λ p, is_Some (PyDict.get l p.2))
         (zip (sentences (base it)) (preds it)).
Proof.
  unfold get_site_content. intros Hs H Hit Hcar. rewrite Hs in H. simpl in H.
  apply assemble_inv in H as (buckets & Hp & _).
  destruct (place_all_facts _ _ _ _ _ Hp (init_sections_ok cfg))
    as (_ & _ & Hall & _).
  destruct (Hall it l Hit Hcar) as [Hr Hk]. split.
  - by apply init_sections_keys.
  - apply render_html_keys in Hr as [-> | [_ Hf]]; [constructor | done].
Qed.

End assembler_failures.

(** ** The training stream and the annotation files *)

Lemma elem_of_concat {A} (ls : list (list A)) x :
  x ∈ concat ls ↔ ∃ l, l ∈ ls ∧ x ∈ l.
Proof.
  induction ls as [|l0 ls IH]; simpl.
  - split; [by intros ?%elem_of_nil | by intros (l & ?%elem_of_nil & _)].
  - rewrite elem_of_app, IH. split.
    + intros [Hx | (l & Hl & Hx)]; [exists l0; split; [by left | done] |].
      exists l. split; [by right | done].
    + intros (l & [-> | Hl]%elem_of_cons & Hx); [by left |]. right. by exists l.
Qed.

Section train_extras.
Import Utils Train TrainSpec.

(** X10. [get_train_stream] fails exactly when the annotation file of
    some label of [LABELS] is missing. *)
Theorem train_stream_fails_iff (annot : gmap string (list AnnotLine)) LABELS :
  get_train_stream annot LABELS = None ↔
  ∃ l, l ∈ LABELS ∧ annot !! l = None.
Proof.
  induction LABELS as [|lab L IH]; simpl.
  - split; [done | by intros (l & ?%elem_of_nil & _)].
  - destruct (annot !! lab) as [lines|] eqn:Hl; simpl.
    + destruct (get_train_stream annot L) as [rest|]; simpl.
      * split; [done |]. intros (l & [-> | Hin]%elem_of_cons & Hn); [congruence |].
        destruct IH as [_ IH]. discriminate IH. by exists l.
      * split; [| done]. intros _. destruct IH as [IH _].
        destruct (IH eq_refl) as (l & Hin & Hn). exists l. split; [by right | done].
    + split; [| done]. intros _. exists lab. split; [by left | done].
Qed.

(** X11. When it returns, [get_train_stream] gives the lines of the
    label files one file after the other in the order of [LABELS]; a
    line keeps its text, a line with [categories] keeps them, and a line
    with only [cats] gets them as [categories]. *)
Theorem train_stream_lines (annot : gmap string (list AnnotLine)) LABELS out :
  get_train_stream annot LABELS = Some out →
  out = concat ((λ l, cats_shim <$> default [] (annot !! l)) <$> LABELS) ∧
  ∀ ex l lines, l ∈ LABELS → annot !! l = Some lines → ex ∈ lines →
    ∃ ex', ex' ∈ out ∧ line_text ex' = line_text ex ∧
           line_cats ex' = line_cats ex ∧
           line_categories ex'
           = match line_categories ex with
             | Some c => Some c
             | None => line_cats ex
             end.
Proof.
  intros Hout.
  assert (Heq : out = concat ((λ l, cats_shim <$> default [] (annot !! l)) <$> LABELS)).
  { revert out Hout. induction LABELS as [|lab L IH]; intros out; simpl.
    - by intros [= <-].
    - destruct (annot !! lab) as [lines|]; simpl; [| done].
      destruct (get_train_stream annot L) as [rest|]; simpl; [| done].
      intros [= <-]. by rewrite (IH rest). }
  split; [done |]. intros ex l lines Hl Hlines Hex.
  exists (cats_shim ex). split.
  - rewrite Heq. apply elem_of_concat.
    exists (cats_shim <$> lines). split.
    + apply list_elem_of_fmap. exists l. by rewrite Hlines.
    + apply list_elem_of_fmap. by exists ex.
  - unfold cats_shim.
    destruct (line_categories ex) eqn:E1, (line_cats ex) eqn:E2; simpl;
      rewrite ?E1, ?E2; done.
Qed.

(** X12. A record answered anything but [accept] or [reject] has no
    influence on the accumulated training set. *)
Theorem accumulate_ignores (stream : list Annotation) :
  accumulate stream
  = accumulate (filter (λ ex, answer ex = "accept" ∨ answer ex = "reject")
                       stream).
Proof.
  unfold accumulate. f_equal.
  induction stream as [|ex s IH]; [done |].
  rewrite filter_cons. cbn [_sentence_data_to_train_format].
  unfold outcome_of at 1.
  destruct (decide (answer ex = "reject")) as [Hr|Hr].
  - rewrite decide_True by (by right). cbn [_sentence_data_to_train_format].
    unfold outcome_of at 1. rewrite (decide_True (P := answer ex = "reject")) by done.
    by rewrite IH.
  - destruct (decide (answer ex = "accept")) as [Ha|Ha].
    + rewrite decide_True by (by left). cbn [_sentence_data_to_train_format].
      unfold outcome_of at 1.
      rewrite (decide_True (P := answer ex = "accept")) by done.
      rewrite (decide_False (P := answer ex = "reject")) by done.
      by rewrite IH.
    + rewrite decide_False by (intros [? | ?]; done). exact IH.
Qed.

End train_extras.

(** ** Annotation by a language model *)

Section llm_extras.
Import Train LlmAnnotate LlmSpec.

Lemma zero_categories_lookup (labels : list string) k :
  (list_to_map ((λ lab, (lab, 0%Z)) <$> labels) : gmap string Z) !! k
  = if decide (k ∈ labels) then Some 0%Z else None.
Proof.
  induction labels as [|a L IH].
  - rewrite fmap_nil, list_to_map_nil, lookup_empty.
    rewrite decide_False; [done | by intros ?%elem_of_nil].
  - rewrite fmap_cons, list_to_map_cons, lookup_insert.
    destruct (decide (a = k)) as [->|Ha].
    + rewrite decide_True; [done | by left].
    + rewrite IH. destruct (decide (k ∈ L)) as [HL|HL].
      * rewrite decide_True; [done | by right].
      * rewrite decide_False; [done |].
        intros [?|?]%elem_of_cons; congruence.
Qed.

Lemma to_categories_unfold label labels :
  _to_categories label labels
  = if decide (label ∈ labels)
    then <[label := 1%Z]> (list_to_map ((λ lab, (lab, 0%Z)) <$> labels))
    else list_to_map ((λ lab, (lab, 0%Z)) <$> labels).
Proof.
  unfold _to_categories. destruct (decide (label ∈ labels)) as [Hin|Hin].
  - rewrite decide_True; [done |].
    rewrite zero_categories_lookup, decide_True by done. by eexists.
  - rewrite decide_False; [done |].
    rewrite zero_categories_lookup, decide_False by done. by intros [? ?].
Qed.

Lemma to_categories_one label labels l :
  _to_categories label labels !! l = Some 1%Z ↔ l ∈ labels ∧ l = label.
Proof.
  rewrite to_categories_unfold.
  destruct (decide (label ∈ labels)) as [Hin|Hin].
  - rewrite lookup_insert.
    destruct (decide (label = l)) as [->|Hne]; [done |].
    rewrite zero_categories_lookup.
    destruct (decide (l ∈ labels)); split; try done; intros [_ ?]; congruence.
  - rewrite zero_categories_lookup.
    destruct (decide (l ∈ labels)); split; try done; intros [? ->]; done.
Qed.

(** X13. [_to_categories] gives a mapping over exactly the labels, with
    1 at the chosen label and 0 elsewhere; a label that is not in the
    list leaves every entry at 0. *)
Theorem to_categories_lookup label labels l :
  _to_categories label labels !! l
  = if decide (l ∈ labels)
    then Some (if decide (l = label) then 1%Z else 0%Z)
    else None.
Proof.
  rewrite to_categories_unfold.
  destruct (decide (label ∈ labels)) as [Hin|Hin].
  - rewrite lookup_insert.
    destruct (decide (label = l)) as [->|Hne].
    + rewrite decide_True by done. by rewrite decide_True.
    + rewrite zero_categories_lookup. destruct (decide (l ∈ labels)); [| done].
      rewrite decide_False; [done | congruence].
  - rewrite zero_categories_lookup. destruct (decide (l ∈ labels)); [| done].
    rewrite decide_False; [done |]. intros ->. done.
Qed.

Section run.
Variable choose_label : string → string.
Variable LABELS : list string.

(** X14. Without a [project_id] attribute on [CONFIG], [run] never
    annotates: the conditional expression takes in the whole [or], so
    the project is [None] whatever [GCP_PROJECT] holds, and [run] raises
    [ValueError], or [FileNotFoundError] when the credentials file is
    missing. *)
Theorem run_without_config_project env path_exists level limit stream annot :
  run choose_label LABELS env path_exists None level limit stream annot
  = if path_exists (creds_path env) then inl ValueError
    else inl FileNotFoundError.
Proof.
  unfold run.
  set (env1 := if decide (is_Some (env !! "GOOGLE_APPLICATION_CREDENTIALS"))
               then env else _).
  set (env2 := if decide (is_Some (env1 !! "GCP_PROJECT")) then env1 else _).
  assert (Hc : default "google_cred.json"
                 (env2 !! "GOOGLE_APPLICATION_CREDENTIALS") = creds_path env).
  { assert (env2 !! "GOOGLE_APPLICATION_CREDENTIALS"
            = env1 !! "GOOGLE_APPLICATION_CREDENTIALS") as ->.
    { subst env2. case_decide; [done | by rewrite lookup_insert_ne]. }
    subst env1. unfold creds_path.
    destruct (decide (is_Some (env !! "GOOGLE_APPLICATION_CREDENTIALS")))
      as [[c Hc] | Hn].
    - by rewrite Hc.
    - rewrite lookup_insert_eq.
      destruct (env !! "GOOGLE_APPLICATION_CREDENTIALS"); [| done].
      destruct Hn. by eexists. }
  rewrite Hc. by destruct (path_exists (creds_path env)).
Qed.

Lemma annotate_take limit stream examples :
  ((Z.of_nat (length examples) < limit)%Z ∨ examples = []) →
  annotate choose_label LABELS limit stream examples
  = examples
      ++ take (Z.to_nat (Z.max 1 (limit - Z.of_nat (length examples))))
              (annotated choose_label LABELS <$> texts_of stream).
Proof.
  revert examples. induction stream as [|ex stream IH]; intros examples Hinv.
  - simpl. unfold texts_of. simpl. by rewrite take_nil, app_nil_r.
  - cbn [annotate]. unfold texts_of. rewrite fmap_cons, filter_cons.
    destruct (decide (example_text ex = "")) as [He|He].
    + rewrite (decide_False (P := example_text ex ≠ ""))
        by (intros Hne; by apply Hne).
      by apply IH.
    + rewrite (decide_True (P := example_text ex ≠ "")) by done.
      rewrite fmap_cons.
      fold (texts_of stream). fold (annotated choose_label LABELS (example_text ex)).
      rewrite length_app. simpl.
      destruct (decide (limit ≤ Z.of_nat (length examples + 1))%Z) as [Hl|Hl].
      * replace (Z.to_nat (Z.max 1 (limit - Z.of_nat (length examples))))
          with 1 by lia. done.
      * rewrite IH by (left; rewrite length_app; simpl; lia).
        rewrite length_app. simpl. rewrite <- app_assoc. f_equal.
        replace (Z.to_nat (Z.max 1 (limit - Z.of_nat (length examples))))
          with (S (Z.to_nat (Z.max 1 (limit - Z.of_nat (length examples + 1)))))
          by lia.
        done.
Qed.

(** X15. [run] annotates the first [limit] records with a non-empty
    text, in stream order and each with the categories of the label
    chosen for it; since the length is tested after the example is
    added, a [limit] of zero or less still annotates one. *)
Theorem annotate_first limit stream :
  annotate choose_label LABELS limit stream []
  = take (Z.to_nat (Z.max 1 limit))
         (annotated choose_label LABELS <$> texts_of stream).
Proof.
  rewrite annotate_take by (by right). simpl. by rewrite Z.sub_0_r.
Qed.

Lemma write_subsets_lookup examples (annot : gmap string (list AnnotLine)) l :
  write_subsets LABELS examples annot !! l
  = if decide (l ∈ LABELS) then Some (filter (has_label l) examples)
    else annot !! l.
Proof.
  unfold write_subsets. induction LABELS as [|lab L IH] using rev_ind.
  - cbn [foldl]. rewrite decide_False; [done | by intros ?%elem_of_nil].
  - rewrite foldl_snoc, lookup_insert.
    destruct (decide (lab = l)) as [->|Hne].
    + rewrite decide_True; [done |]. apply elem_of_app. right. by left.
    + rewrite IH. destruct (decide (l ∈ L)) as [HL|HL].
      * rewrite decide_True; [done |]. apply elem_of_app. by left.
      * rewrite decide_False; [done |].
        intros [? | ?%list_elem_of_singleton]%elem_of_app; congruence.
Qed.

Lemma get_train_stream_files (annot : gmap string (list AnnotLine)) L f :
  (∀ l, l ∈ L → annot !! l = Some (f l)) →
  get_train_stream annot L = Some (concat ((λ l, cats_shim <$> f l) <$> L)).
Proof.
  induction L as [|lab L IH]; intros Hall; [done |]. simpl.
  rewrite (Hall lab) by (by left). simpl.
  rewrite IH by (intros l Hl; apply Hall; by right). done.
Qed.

Lemma cats_shim_annotated examples :
  Forall (λ ex, is_Some (line_categories ex)) examples →
  cats_shim <$> examples = examples.
Proof.
  induction 1 as [|ex l [c Hc] _ IH]; [done |].
  rewrite fmap_cons, IH. f_equal. unfold cats_shim. by rewrite Hc.
Qed.

(** X16. After a [run] that annotates, the file of every label of
    [LABELS] holds exactly the new examples with that label, whatever it
    held before, and the other files are as they were; an example is in
    the file of a label exactly when that label was chosen for its text
    and is in [LABELS], so an example with any other answer is in no
    file; and [get_train_stream] then returns the files' examples in
    the order of [LABELS]. *)
Theorem run_feeds_training env path_exists config_project_id level limit
    stream annot annot' :
  run choose_label LABELS env path_exists config_project_id level limit
      stream annot = inr annot' →
  let examples :=
    take (Z.to_nat (Z.max 1 limit))
         (annotated choose_label LABELS
            <$> texts_of (Clean.get_download_stream level stream)) in
  (∀ l, annot' !! l
        = if decide (l ∈ LABELS) then Some (filter (has_label l) examples)
          else annot !! l) ∧
  (∀ ex l, ex ∈ examples →
     has_label l ex ↔ l ∈ LABELS ∧ choose_label (line_text ex) = l) ∧
  get_train_stream annot' LABELS
  = Some (concat ((λ l, filter (has_label l) examples) <$> LABELS)).
Proof.
  intros Hrun examples.
  assert (Hannot : annot' = write_subsets LABELS examples annot).
  { unfold run in Hrun.
    destruct (negb _); [done |]. destruct (decide (_ ∨ _)); [done |].
    injection Hrun as <-.
    rewrite annotate_take by (by right). simpl. by rewrite Z.sub_0_r. }
  assert (Hex : ∀ ex, ex ∈ examples →
            ∃ t, ex = annotated choose_label LABELS t).
  { intros ex Hin. apply elem_of_take in Hin as (i & Hi & _).
    apply list_lookup_fmap_Some in Hi as (t & -> & _). by exists t. }
  split_and!.
  - intros l. rewrite Hannot. apply write_subsets_lookup.
  - intros ex l (t & ->)%Hex. unfold has_label, annotated. simpl.
    rewrite to_categories_one. split; intros [? ?]; by split.
  - rewrite (get_train_stream_files annot' LABELS
               (λ l, filter (has_label l) examples)).
    + f_equal. f_equal. apply list_fmap_ext. intros i l _.
      apply cats_shim_annotated. apply Forall_forall.
      intros ex [_ (t & ->)%Hex]%list_elem_of_filter. by eexists.
    + intros l Hl. rewrite Hannot, write_subsets_lookup. by rewrite decide_True.
Qed.

End run.
End llm_extras.

(** ** Fetching new articles *)

Section download_facts.
Import Utils Clean Download.

Lemma elem_of_glob_jsonl {V} (folder : gmap string V) p :
  p ∈ glob_jsonl folder ↔ is_Some (folder !! p) ∧ ends_with ".jsonl" p = true.
Proof.
  unfold glob_jsonl. rewrite list_elem_of_filter, list_elem_of_fmap. split.
  - intros [He ([k v] & -> & Hin%elem_of_map_to_list)]. simpl in *.
    split; [by eexists | done].
  - intros [[v Hv] He]. split; [done |]. exists (p, v).
    split; [done | by apply elem_of_map_to_list].
Qed.

Lemma glob_jsonl_NoDup {V} (folder : gmap string V) : NoDup (glob_jsonl folder).
Proof. unfold glob_jsonl. apply NoDup_filter, NoDup_fst_map_to_list. Qed.

Global Instance ascending_trans {A} (key : A → string) :
  Transitive (ascending key).
Proof. intros a b c Hab Hbc. unfold ascending in *. by eapply string_leb_trans. Qed.

(** The last element of a sorted list is a greatest element of the
    list. *)
Lemma last_sorted_max (l : list string) x :
  last (sorted id l) = Some x →
  x ∈ l ∧ ∀ y, y ∈ l → String.leb y x = true.
Proof.
  intros Hlast. pose proof (sorted_perm id l) as Hperm.
  pose proof (sorted_Sorted id l) as Hs.
  apply Sorted_StronglySorted in Hs; [| apply _].
  apply last_Some in Hlast as [l' Hl']. rewrite Hl' in Hs, Hperm.
  split.
  - rewrite <- Hperm. apply elem_of_app. right. by left.
  - intros y Hy. rewrite <- Hperm in Hy.
    apply elem_of_app in Hy as [Hy | ->%list_elem_of_singleton].
    + apply StronglySorted_app in Hs as (Hall & _ & _).
      apply (Hall y x Hy). by left.
    + apply string_leb_refl.
Qed.

Lemma last_sorted_None (l : list string) : last (sorted id l) = None ↔ l = [].
Proof.
  rewrite last_None. pose proof (sorted_perm id l) as Hperm. split.
  - intros E. rewrite E in Hperm. symmetry in Hperm.
    by apply Permutation_nil_r in Hperm.
  - by intros ->.
Qed.

Lemma by_title_snoc l a :
  by_title (l ++ [a]) = PyDict.set (title a) a (by_title l).
Proof. unfold by_title. by rewrite foldl_snoc. Qed.

Lemma by_title_get l t :
  PyDict.get t (by_title l) = last (filter (λ a, title a = t) l).
Proof.
  induction l as [|a l IH] using rev_ind; [done |].
  rewrite by_title_snoc, pydict_get_set, filter_app, filter_cons, filter_nil.
  destruct (decide (t = title a)) as [->|Ht].
  - rewrite decide_True by done. by rewrite last_snoc.
  - rewrite decide_False by congruence. by rewrite app_nil_r.
Qed.

Lemma by_title_NoDup l : NoDup (by_title l).*1.
Proof.
  induction l as [|a l IH] using rev_ind; [constructor |].
  rewrite by_title_snoc. by apply pydict_set_NoDup.
Qed.

Lemma by_title_elem l k a :
  (k, a) ∈ by_title l ↔ k = title a ∧ last (filter (λ b, title b = title a) l) = Some a.
Proof.
  split.
  - intros Hin. apply (pydict_elem_get _ _ _ (by_title_NoDup l)) in Hin.
    rewrite by_title_get in Hin.
    pose proof Hin as Hl. apply last_Some_elem_of, list_elem_of_filter in Hl as [<- _].
    done.
  - intros [-> Hl]. apply pydict_get_Some. by rewrite by_title_get.
Qed.

Lemma by_title_missing l t :
  PyDict.get t (by_title l) = None ↔ t ∉ title <$> l.
Proof.
  rewrite by_title_get, last_None. split.
  - intros E (a & -> & Ha)%list_elem_of_fmap.
    assert (a ∈ filter (λ b, title b = title a) l) as Hin
      by (by apply list_elem_of_filter).
    rewrite E in Hin. by apply elem_of_nil in Hin.
  - intros Hn. destruct (filter _ l) as [|a l'] eqn:E; [done |].
    assert (a ∈ filter (λ b, title b = t) l) as [<- Ha]%list_elem_of_filter
      by (rewrite E; by left).
    exfalso. apply Hn. apply list_elem_of_fmap. by exists a.
Qed.

End download_facts.

Section download_extras.
Import Utils Clean Download DownloadSpec.
Variable nlp : string → list string.
Variable age_in_days : Result → Q.

(** X17. [main] fails, on the index [-1] of an empty list, exactly
    when the downloads folder holds no [.jsonl] file, whatever the
    search returned. *)
Theorem main_fails_iff results filename (downloads : gmap string (list Article)) :
  main nlp age_in_days results filename downloads = None ↔
  ∀ p, is_Some (downloads !! p) → ends_with ".jsonl" p = false.
Proof.
  unfold main, most_recent_file.
  destruct (last (sorted id (glob_jsonl downloads))) as [recent|] eqn:Hl.
  - cbn [mbind option_bind]. split.
    + intros H. by destruct (_.*2).
    + intros Hall. exfalso. apply last_sorted_max in Hl as [Hin _].
      apply elem_of_glob_jsonl in Hin as [Hs He].
      rewrite (Hall recent Hs) in He. done.
  - cbn [mbind option_bind]. split; [| done]. intros _ p Hp.
    apply last_sorted_None in Hl.
    destruct (ends_with ".jsonl" p) eqn:He; [| done].
    assert (p ∈ glob_jsonl downloads) as Hin by (by apply elem_of_glob_jsonl).
    rewrite Hl in Hin. by apply elem_of_nil in Hin.
Qed.

Lemma new_articles_facts (articles old : list Article) :
  let new := (filter (λ kv, PyDict.get kv.1 (by_title old) = None)
                     (by_title articles)).*2 in
  (∀ a, a ∈ new ↔ is_new articles old a) ∧ NoDup (title <$> new).
Proof.
  intros new. split.
  - intros a. unfold new, is_new. rewrite list_elem_of_fmap. split.
    + intros ([k b] & -> & [Hg Hin]%list_elem_of_filter). simpl in *.
      apply by_title_elem in Hin as [-> Hlast].
      split; [done | by apply by_title_missing].
    + intros [Hlast Hn]. exists (title a, a). split; [done |].
      apply list_elem_of_filter. split; [by apply by_title_missing |].
      by apply by_title_elem.
  - assert (Heq : title <$> new
                  = (filter (λ kv, PyDict.get kv.1 (by_title old) = None)
                            (by_title articles)).*1).
    { unfold new. rewrite <- list_fmap_compose. apply list_fmap_ext.
      intros i [k a] Hi. simpl.
      apply list_elem_of_lookup_2, list_elem_of_filter in Hi as [_ Hi].
      by apply by_title_elem in Hi as [-> _]. }
    rewrite Heq. eapply sublist_NoDup; [apply (by_title_NoDup articles) |].
    apply fmap_sublist, sublist_filter.
Qed.

(** X18. When [main] returns, the folder has a most recent [.jsonl]
    file, greatest by name; what is written is the last fetched article
    of each title that the most recent file does not hold, so the
    written titles are pairwise distinct, and every written article is
    the parse of a result less than 2.5 days old in a category starting
    with [cs]; with nothing new the folder is left as it is, and
    otherwise only the file named from the clock is set. *)
Theorem main_writes_new results filename
    (downloads d' : gmap string (list Article)) :
  main nlp age_in_days results filename downloads = Some d' →
  ∃ most_recent old new,
    downloads !! most_recent = Some old ∧
    ends_with ".jsonl" most_recent = true ∧
    (∀ p, is_Some (downloads !! p) → ends_with ".jsonl" p = true →
          String.leb p most_recent = true) ∧
    (∀ a, a ∈ new ↔ is_new (fetched nlp age_in_days results) old a) ∧
    NoDup (title <$> new) ∧
    (∀ a, a ∈ new → ∃ r, r ∈ results ∧ a = parse nlp r ∧
                         (age_in_days r < 2.5)%Q ∧
                         String.prefix "cs" (primary_category r) = true) ∧
    d' = match new with [] => downloads | _ => <[filename := new]> downloads end.
Proof.
  unfold main, most_recent_file.
  destruct (last (sorted id (glob_jsonl downloads))) as [recent|] eqn:Hl;
    cbn [mbind option_bind]; [| done].
  apply last_sorted_max in Hl as [Hin Hmax].
  apply elem_of_glob_jsonl in Hin as [[old Hold] He].
  rewrite Hold. cbn [default from_option]. fold (fetched nlp age_in_days results).
  destruct (new_articles_facts (fetched nlp age_in_days results) old)
    as [Hmem Hnd].
  set (new := (filter _ (by_title (fetched nlp age_in_days results))).*2) in *.
  intros Hd. exists recent, old, new. split_and!; try done.
  - intros p Hp Hpe. apply Hmax. by apply elem_of_glob_jsonl.
  - intros a [Hlast _]%Hmem.
    apply last_Some_elem_of, list_elem_of_filter in Hlast as [_ Ha].
    unfold fetched in Ha.
    apply list_elem_of_fmap in Ha as (r & -> & [Hr Hin]%list_elem_of_filter).
    exists r. unfold recent_cs in Hr. apply andb_true_iff in Hr as [Hage Hcs].
    split_and!; try done. by apply Qgtb_spec.
  - destruct new; by injection Hd.
Qed.

(** X19. When the name made from the clock is the name of the most
    recent file and something new is written, the file is replaced: no
    article it held before is in it afterwards. *)
Theorem same_file_replaced results filename
    (downloads d' : gmap string (list Article)) old new :
  main nlp age_in_days results filename downloads = Some d' →
  most_recent_file downloads = Some filename →
  downloads !! filename = Some old →
  d' !! filename = Some new →
  new = old ∨ ∀ a, a ∈ old → title a ∉ title <$> new.
Proof.
  unfold main. intros Hmain Hrecent Hold Hnew. rewrite Hrecent in Hmain.
  cbn [mbind option_bind] in Hmain. rewrite Hold in Hmain.
  cbn [default from_option] in Hmain.
  destruct (new_articles_facts (parse nlp <$> filter (λ r, recent_cs age_in_days r = true) results) old)
    as [Hmem _].
  destruct (_.*2) as [|a0 new0] eqn:E.
  - injection Hmain as <-. left. congruence.
  - injection Hmain as <-. rewrite lookup_insert_eq in Hnew. injection Hnew as <-.
    right. intros a Ha (b & Hab & Hb)%list_elem_of_fmap.
    apply Hmem in Hb as [_ Hn]. apply Hn. rewrite <- Hab.
    apply list_elem_of_fmap. by exists a.
Qed.

Lemma replace_newlines_get s i :
  String.length (replace_newlines s) = String.length s ∧
  String.get i (replace_newlines s) ≠ Some (Ascii.ascii_of_nat 10).
Proof.
  revert i. induction s as [|c s IH]; intros i; simpl; [by destruct i |].
  split; [f_equal; apply (IH 0) |].
  destruct i as [|i]; [| apply IH].
  destruct (Ascii.eqb_spec c (Ascii.ascii_of_nat 10)) as [->|Hc].
  - intros H. by vm_compute in H.
  - intros [= H]. done.
Qed.

(** X20. The abstract [parse] makes of a summary has no line break
    anywhere and as many characters as the summary; [created] has at
    most 19 characters. *)
Theorem parse_one_line res i :
  String.get i (abstract (parse nlp res)) ≠ Some (Ascii.ascii_of_nat 10) ∧
  String.length (abstract (parse nlp res)) = String.length (summary res) ∧
  String.length (created (parse nlp res)) ≤ 19.
Proof.
  unfold parse. cbn [abstract created].
  destruct (replace_newlines_get (summary res) i) as [Hlen Hget].
  split_and!; [done | done |].
  generalize (published res) as s. generalize 19 as n.
  induction n as [|n IH]; intros [|c s]; simpl; try lia.
  specialize (IH s). lia.
Qed.

End download_extras.

(** ** Reading the archive back *)

Section concat_facts.
Context {A B : Type}.

Lemma concat_Permutation_proper (l1 l2 : list (list A)) :
  l1 ≡ₚ l2 → concat l1 ≡ₚ concat l2.
Proof.
  induction 1 as [|x l l' _ IH|x y l|l l' l'' _ IH1 _ IH2]; simpl.
  - done.
  - by rewrite IH.
  - rewrite !app_assoc. f_equiv. apply Permutation_app_comm.
  - by rewrite IH1.
Qed.

(** Blocks laid out one after the other are sorted when each block is
    and every element of a block relates to every element of a later
    block. *)
Lemma concat_StronglySorted (R : relation A) (R' : relation B)
    (f : B → list A) (ps : list B) :
  StronglySorted R' ps →
  (∀ p, p ∈ ps → StronglySorted R (f p)) →
  (∀ p q a b, p ∈ ps → q ∈ ps → R' p q → a ∈ f p → b ∈ f q → R a b) →
  StronglySorted R (concat (f <$> ps)).
Proof.
  induction 1 as [|p ps Hs IH Hp]; intros Hblock Hcross; simpl; [constructor |].
  apply StronglySorted_app. split_and!.
  - intros a b Ha (l & (q & -> & Hq)%list_elem_of_fmap & Hb)%elem_of_concat.
    rewrite Forall_forall in Hp.
    apply (Hcross p q a b); [by left | by right | by apply Hp | done | done].
  - apply Hblock. by left.
  - apply IH.
    + intros q Hq. apply Hblock. by right.
    + intros q1 q2 a b H1 H2. apply Hcross; by right.
Qed.

End concat_facts.

Section nest_concat.
Import Utils.
Context {A B K : Type} `{EqDecision K}.
Variable split : A → option (K * B).

Lemma group_add_concat (k : K) (b : B) (g : list (K * list B)) :
  concat (group_add k b g).*2 ≡ₚ b :: concat g.*2.
Proof.
  induction g as [|[k0 bs] g IH]; simpl; [done |].
  case_decide; simpl.
  - rewrite <- app_assoc. simpl. by rewrite <- Permutation_middle.
  - rewrite IH. by rewrite <- Permutation_middle.
Qed.

Lemma nest_loop_concat s (g g' : list (K * list B)) :
  nest_loop split s g = Some g' →
  concat g'.*2 ≡ₚ concat g.*2 ++ omap (λ x, snd <$> split x) s.
Proof.
  revert g. induction s as [|x s IH]; intros g; cbn [nest_loop].
  - intros [= <-]. by rewrite app_nil_r.
  - destruct (split x) as [[k b]|] eqn:Hx; cbn [mbind option_bind]; [| done].
    intros Hl. rewrite (IH _ Hl), group_add_concat.
    cbn [omap list_omap]. rewrite Hx. simpl. by rewrite <- Permutation_middle.
Qed.

End nest_concat.

Lemma string_compare_refl (s : string) : String.compare s s = Eq.
Proof.
  induction s as [|c s IH]; [done |]. simpl.
  unfold Ascii.compare. by rewrite N.compare_refl.
Qed.

Lemma string_leb_app_same_length (a b s : string) :
  String.length a = String.length b →
  String.leb (a +:+ s) (b +:+ s) = String.leb a b.
Proof.
  unfold String.leb. revert b.
  induction a as [|x a IH]; intros [|y b] Hlen; simpl in *; try done.
  - by rewrite string_compare_refl.
  - destruct (Ascii.compare x y); [| done | done]. apply IH. lia.
Qed.

Lemma str_take_length n s :
  n ≤ String.length s → String.length (Utils.str_take n s) = n.
Proof.
  revert s. induction n as [|n IH]; intros [|c s] Hn; simpl in *; try lia.
  rewrite IH; lia.
Qed.

Lemma ends_with_app suf a : Clean.ends_with suf (a +:+ suf) = true.
Proof.
  induction a as [|c a IH].
  - change ("" +:+ suf) with suf.
    destruct suf; cbn [Clean.ends_with]; by rewrite String.eqb_refl.
  - change (String c a +:+ suf) with (String c (a +:+ suf)).
    cbn [Clean.ends_with]. rewrite IH. by destruct (String.eqb _ _).
Qed.

Section clean_round_trip.
Import Utils Archive Clean.
Variable jsonl : list Article → string.
Variable read_jsonl : string → list Article.

Lemma set_created_same d a : created a = d → set_created d a = a.
Proof. intros <-. by destruct a. Qed.

Lemma set_created_group d (l : list Article) :
  Forall (λ a, created a = d) l → set_created d <$> l = l.
Proof.
  induction 1 as [|a l Ha _ IH]; [done |].
  rewrite fmap_cons, IH. f_equal. by apply set_created_same.
Qed.

Lemma omap_split_created (l : list Article) :
  omap (λ x, snd <$> split_created x) l = l.
Proof.
  induction l as [|a l IH]; [done |].
  change (omap (λ x, snd <$> split_created x) (a :: l))
    with (a :: omap (λ x, snd <$> split_created x) l).
  by rewrite IH.
Qed.

Lemma same_created_sorted d (l : list Article) :
  Forall (λ a, created a = d) l → StronglySorted (not_older created) l.
Proof.
  induction 1 as [|a l Ha Hl IH]; constructor; [done |].
  eapply Forall_impl; [exact Hl |]. simpl. intros b Hb.
  unfold not_older. rewrite Ha, Hb. apply string_leb_refl.
Qed.

(** What the archive written from nothing holds: one file per group,
    and the groups hold the records of the stream with their day. *)
Lemma saved_archive (stream : list Article) nested :
  nest_by split_created (mutate_created <$> stream) = Some nested →
  let fs1 := foldl (write_group jsonl) ∅ nested in
  NoDup nested.*1 ∧
  (∀ d bs, (d, bs) ∈ nested →
     fs1 !! (d +:+ ".jsonl") = Some (jsonl (set_created d <$> bs)) ∧
     set_created d <$> bs = bs ∧
     Forall (λ a, created a = d ∧ ∃ a0, a0 ∈ stream ∧ d = day_of a0) bs ∧
     bs = set_created d <$> filter (λ b, day_of b = d) stream ∧
     ∃ a0, a0 ∈ stream ∧ d = day_of a0) ∧
  (∀ p, p ∈ glob_jsonl fs1 ↔ p ∈ (λ d, d +:+ ".jsonl") <$> nested.*1) ∧
  concat nested.*2 ≡ₚ mutate_created <$> stream.
Proof.
  intros Hn fs1. destruct (nest_by_groups _ _ _ Hn) as [Hnd Hg].
  assert (Hgroup : ∀ d bs, (d, bs) ∈ nested →
            Forall (λ a, created a = d ∧ ∃ a0, a0 ∈ stream ∧ d = day_of a0) bs).
  { intros d bs [-> _]%Hg. rewrite members_split_created.
    apply Forall_forall. intros a [Ha Hin]%list_elem_of_filter.
    split; [done |]. apply list_elem_of_fmap in Hin as (a0 & -> & Hin).
    exists a0. split; [done |]. by rewrite <- Ha. }
  split_and!; [done | | |].
  - intros d bs Hin. split_and!; [| | by apply Hgroup | |].
    + unfold fs1. rewrite write_groups_lookup.
      by rewrite (written_group jsonl _ _ _ Hnd Hin).
    + apply set_created_group. eapply Forall_impl; [by apply Hgroup |].
      simpl. by intros a [Ha _].
    + apply Hg in Hin as [-> _]. apply members_mutate_created.
    + pose proof (Hgroup d bs Hin) as Hall. apply Hg in Hin as [_ Hne].
      destruct bs as [|a bs]; [done |].
      apply Forall_cons in Hall as [[_ ?] _]. done.
  - intros p. rewrite elem_of_glob_jsonl. unfold fs1.
    rewrite write_groups_lookup. split.
    + intros [Hsome _].
      destruct (decide (p ∈ (λ d, d +:+ ".jsonl") <$> nested.*1)) as [|Hnot];
        [done |].
      rewrite written_other, lookup_empty in Hsome; [by destruct Hsome |].
      intros day Hday E. apply Hnot. apply list_elem_of_fmap. by exists day.
    + intros (d & -> & ([d' bs] & -> & Hin)%list_elem_of_fmap)%list_elem_of_fmap.
      simpl. rewrite (written_group jsonl _ _ _ Hnd Hin).
      split; [by eexists | apply ends_with_app].
  - unfold nest_by in Hn. apply nest_loop_concat in Hn.
    by rewrite Hn, omap_split_created.
Qed.

(** X21. Reading back what [save_clean_download_stream] wrote into an
    empty folder, with a reader that returns for each partition the
    records the writer was given, yields every deduplicated record
    exactly once, with [created] cut down to the day:
    [get_clean_download_stream] returns a rearrangement of them without
    a repeated abstract, and, when every [created] has its ten
    characters of date, with the newest day first. *)
Theorem clean_stream_round_trip downloads :
  (∀ a, a ∈ dedup_stream abstract (get_raw_download_stream downloads) →
     let partition :=
       set_created (day_of a)
         <$> filter (λ b, day_of b = day_of a)
               (dedup_stream abstract (get_raw_download_stream downloads)) in
     read_jsonl (jsonl partition) = partition) →
  ∃ fs1,
    save_clean_download_stream jsonl downloads ∅ = Some fs1 ∧
    get_clean_download_stream read_jsonl fs1
      ≡ₚ mutate_created
           <$> dedup_stream abstract (get_raw_download_stream downloads) ∧
    NoDup (abstract <$> get_clean_download_stream read_jsonl fs1) ∧
    (Forall (λ a, 10 ≤ String.length (created a))
            (dedup_stream abstract (get_raw_download_stream downloads)) →
     StronglySorted (not_older created)
                    (get_clean_download_stream read_jsonl fs1)).
Proof.
  intros Hrt. unfold save_clean_download_stream.
  set (stream := dedup_stream abstract (get_raw_download_stream downloads)).
  destruct (nest_by_total split_created (mutate_created <$> stream))
    as [nested Hn]; [by apply Forall_forall |].
  rewrite Hn. cbn [mbind option_bind]. eexists. split; [done |].
  destruct (saved_archive stream nested Hn) as (Hnd & Hfile & Hglob & Hcat).
  set (fs1 := foldl (write_group jsonl) ∅ nested) in *.
  unfold get_clean_download_stream.
  set (f := λ file, from_option read_jsonl [] (fs1 !! file)).
  set (arranged := reverse (sorted id (glob_jsonl fs1))).
  assert (Hf : ∀ d bs, (d, bs) ∈ nested → f (d +:+ ".jsonl") = bs).
  { intros d bs Hin.
    destruct (Hfile d bs Hin) as (Hl & Hs & _ & Hbs & a0 & Ha0 & ->).
    unfold f. rewrite Hl. simpl. rewrite Hs, Hbs. exact (Hrt a0 Ha0). }
  assert (Harr : arranged ≡ₚ (λ d, d +:+ ".jsonl") <$> nested.*1).
  { unfold arranged. rewrite reverse_Permutation, (sorted_perm id).
    apply NoDup_Permutation; [apply glob_jsonl_NoDup | | exact Hglob].
    apply NoDup_fmap_2_strong; [| done].
    intros a b _ _. apply string_app_suffix_inj. }
  assert (Hblock : ∀ p, p ∈ arranged →
            ∃ d, p = d +:+ ".jsonl" ∧
                 Forall (λ a, created a = d ∧ ∃ a0, a0 ∈ stream ∧ d = day_of a0)
                        (f p)).
  { intros p Hp. rewrite Harr in Hp.
    apply list_elem_of_fmap in Hp as (d & -> & ([d' bs] & -> & Hin)%list_elem_of_fmap).
    simpl. exists d'. split; [done |]. rewrite (Hf d' bs Hin).
    by destruct (Hfile d' bs Hin) as (_ & _ & ? & _). }
  assert (Hclean : concat (f <$> arranged) ≡ₚ mutate_created <$> stream).
  { rewrite <- Hcat. apply concat_Permutation_proper. rewrite Harr.
    assert (f <$> ((λ d, d +:+ ".jsonl") <$> nested.*1) = nested.*2) as ->;
      [| done].
    rewrite <- !list_fmap_compose. apply list_fmap_ext.
    intros i [d bs] Hi. simpl. apply Hf. by eapply list_elem_of_lookup_2. }
  split_and!.
  - exact Hclean.
  - rewrite Hclean, <- list_fmap_compose. apply dedup_stream_NoDup.
  - intros Hlen. apply (concat_StronglySorted _ (not_older id)).
    + apply reversed_sorted_newest_first.
    + intros p (d & _ & Hall)%Hblock. apply (same_created_sorted d).
      eapply Forall_impl; [exact Hall |]. simpl. by intros a [? _].
    + intros p q a b (dp & -> & Hp)%Hblock (dq & -> & Hq)%Hblock Hpq Ha Hb.
      rewrite Forall_forall in Hp, Hq, Hlen.
      destruct (Hp a Ha) as (Ea & a0 & Ha0 & Hda).
      destruct (Hq b Hb) as (Eb & b0 & Hb0 & Hdb).
      unfold not_older in *. simpl in Hpq. rewrite Ea, Eb.
      rewrite string_leb_app_same_length in Hpq; [done |].
      rewrite Hda, Hdb. unfold day_of.
      rewrite !str_take_length; [done | by apply Hlen | by apply Hlen].
Qed.

End clean_round_trip.

(** ** More theorems at sample inputs *)

Section more_instances.
Import Utils Archive Clean Download DownloadSpec Train TrainSpec LlmAnnotate
  LlmSpec Site SiteSpec SiteSpec2 Assembler AssemblerSpec Samples Samples2.

Lemma yielded_iff_sectioned_witness :
  (0 ∈ [0; 0; 1] →
   ∃ s, sections (scored (art "2024-01-02" "A" ["good"; "edge"; "good"]))
        = Some s ∧ s ≠ [] ∧ NoDup s) ∧
  (0 ∉ [0; 0; 1] →
   sections (scored (art "2024-01-02" "A" ["good"; "edge"; "good"])) = None).
Proof.
  apply (yielded_iff_sectioned ["cs.LG"] thr model1 clean2 _ _ _ 0 _ sample_run).
  reflexivity.
Defined.

Lemma yields_bounded_witness :
  length (collect ({[ "cs.LG" := 3 ]}, scored <$> clean2, [0; 0; 1]))
  = total {[ "cs.LG" := 3 ]} ∧
  total {[ "cs.LG" := 3 ]} ≤ 50 * length ["cs.LG"].
Proof.
  apply (yields_bounded ["cs.LG"] thr model1 clean2 _ _ _ sample_run).
Defined.

Lemma thr_covers l : l ∈ ["cs.LG"] → is_Some (thr !! l).
Proof. intros ->%list_elem_of_singleton. by eexists. Defined.

Lemma thresholds_suffice_witness :
  is_Some (get_site_stream ["cs.LG"] thr model1 clean2).
Proof. apply thresholds_suffice. exact thr_covers. Defined.

Lemma success_needs_thresholds_witness : is_Some (thr !! "cs.LG").
Proof.
  apply (success_needs_thresholds ["cs.LG"] thr model1 clean2 _ _ _
           (scored (art "2024-01-02" "A" ["good"; "edge"; "good"]))
           [("cs.LG", 0.9%Q); ("other", 1%Q)] "cs.LG" 0.9%Q sample_run).
  - by left.
  - by left.
  - by left.
  - by left.
Defined.

Lemma sample_pre_run :
  upper_limit_run thr ["cs.LG"] pre1
  = Some ({[ "cs.LG" := 2 ]},
          [scored (art "2024-01-02" "A" ["good"; "edge"; "good"])], [0; 0]).
Proof. vm_compute. reflexivity. Defined.

Lemma run_carries_on_witness :
  upper_limit_run thr ["cs.LG"] (pre1 ++ post2)
  = (stream_loop thr (length pre1) post2 {[ "cs.LG" := 2 ]}
       ≫= λ r, Some (r.1.1,
                      [scored (art "2024-01-02" "A" ["good"; "edge"; "good"])]
                        ++ r.1.2,
                      [0; 0] ++ r.2)).
Proof.
  apply (run_carries_on thr ["cs.LG"] pre1 post2 _ _ _ sample_pre_run).
  by vm_compute.
Defined.

Lemma sections_follow_config_witness :
  ∃ s, get_site_content thr show1 ["cs.LG"] cfg1 model1 clean3 = Some [s] ∧
       NoDup ((λ s, sec_label (config s)) <$> [s]) ∧
       (∀ c, c ∈ cfg1 → ∃ s', s' ∈ [s] ∧ sec_label (config s') = sec_label c) ∧
       (∀ s', s' ∈ [s] →
          last (filter (λ c, sec_label c = sec_label (config s')) cfg1)
          = Some (config s')).
Proof.
  destruct sample_content as (s & Hs & _). exists s. split; [exact Hs |].
  exact (sections_follow_config thr show1 ["cs.LG"] cfg1 model1 clean3 [s] Hs).
Defined.

Lemma sample_stream3 :
  ∃ stream, get_site_stream ["cs.LG"] thr model1 clean3 = Some stream.
Proof. eexists. vm_compute. reflexivity. Defined.

Lemma content_membership_witness :
  ∃ stream s,
    get_site_stream ["cs.LG"] thr model1 clean3 = Some stream ∧
    get_site_content thr show1 ["cs.LG"] cfg1 model1 clean3 = Some [s] ∧
    ∀ e, e ∈ content s ↔
         item e ∈ dedup_stream (λ ex, abstract (base ex)) stream ∧
         carries (sec_label (config s)) (item e) ∧
         render_html thr show1 (item e) (sec_label (config s)) = Some (html e) ∧
         entry_categories e = [].
Proof.
  destruct sample_stream3 as (stream & Hstream).
  destruct sample_content as (s & Hs & _). exists stream, s.
  split; [exact Hstream |]. split; [exact Hs |]. intros e.
  apply (content_membership thr show1 ["cs.LG"] cfg1 model1 clean3 stream [s] s e
           Hstream Hs).
  by left.
Defined.

Lemma model1_scores ss ps l :
  ps ∈ model1 ss → l ∈ ["cs.LG"] → is_Some (PyDict.get l ps).
Proof.
  intros (sent & -> & _)%list_elem_of_fmap ->%list_elem_of_singleton.
  destruct (String.eqb sent "good"); [by eexists |].
  destruct (String.eqb sent "edge"); by eexists.
Defined.

Lemma site_content_returns_witness :
  is_Some (get_site_content thr show1 ["cs.LG"] cfg1 model1 clean3).
Proof.
  apply site_content_returns.
  - exact thr_covers.
  - intros l ->%list_elem_of_singleton. vm_compute. left.
  - exact model1_scores.
Defined.

Lemma site_content_needs_witness :
  "cs.LG" ∈ sec_label <$> cfg1 ∧
  Forall (λ p, is_Some (PyDict.get "cs.LG" p.2))
         (zip (sentences (base (scored (art "2024-01-01" "A" ["good"]))))
              (preds (scored (art "2024-01-01" "A" ["good"])))).
Proof.
  destruct sample_stream3 as (stream & Hstream).
  destruct sample_content as (s & Hs & _).
  apply (site_content_needs thr show1 ["cs.LG"] cfg1 model1 clean3 stream [s]
           (scored (art "2024-01-01" "A" ["good"])) "cs.LG" Hstream Hs).
  - vm_compute in Hstream. injection Hstream as <-. by left.
  - unfold carries. simpl. by left.
Defined.

Lemma sample_train_stream :
  ∃ out, get_train_stream annot2 ["cs.LG"; "cs.CL"] = Some out.
Proof. eexists. vm_compute. reflexivity. Defined.

Lemma train_stream_lines_witness :
  ∃ out, get_train_stream annot2 ["cs.LG"; "cs.CL"] = Some out ∧
    ∃ ex', ex' ∈ out ∧ line_text ex' = "u" ∧
           line_cats ex' = Some {[ "cs.CL" := 1%Z ]} ∧
           line_categories ex' = Some {[ "cs.CL" := 1%Z ]}.
Proof.
  destruct sample_train_stream as (out & Hout). exists out.
  split; [exact Hout |].
  destruct (train_stream_lines annot2 ["cs.LG"; "cs.CL"] out Hout) as [_ H].
  apply (H (mkAnnotLine "u" None (Some {[ "cs.CL" := 1%Z ]})) "cs.CL"
           [mkAnnotLine "u" None (Some {[ "cs.CL" := 1%Z ]})]).
  - right. by left.
  - by vm_compute.
  - by left.
Defined.

Lemma sample_llm_run :
  ∃ annot', run choose1 ["cs.LG"] env1 (λ _, true) (Some "q") "abstract" 2
                clean3 ∅ = inr annot'.
Proof. eexists. reflexivity. Defined.

Lemma run_feeds_training_witness :
  ∃ annot',
    run choose1 ["cs.LG"] env1 (λ _, true) (Some "q") "abstract" 2 clean3 ∅
    = inr annot' ∧
    get_train_stream annot' ["cs.LG"]
    = Some (concat ((λ l, filter (has_label l)
                            (take (Z.to_nat (Z.max 1 2))
                               (annotated choose1 ["cs.LG"]
                                  <$> texts_of (get_download_stream "abstract" clean3))))
                      <$> ["cs.LG"])).
Proof.
  destruct sample_llm_run as (annot' & Hrun). exists annot'.
  split; [exact Hrun |].
  apply (run_feeds_training choose1 ["cs.LG"] env1 (λ _, true) (Some "q")
           "abstract" 2 clean3 ∅ annot' Hrun).
Defined.

Lemma sample_recent :
  most_recent_file downloads1 = Some "2024-01-02-10h.jsonl".
Proof. vm_compute. reflexivity. Defined.

Lemma sample_main :
  ∃ d', main nlp1 age1 results3 "2024-01-03-12h.jsonl" downloads1 = Some d'.
Proof.
  unfold main. rewrite sample_recent. cbn [mbind option_bind].
  destruct (_.*2); by eexists.
Defined.

Lemma main_writes_new_witness :
  ∃ d' most_recent old new,
    main nlp1 age1 results3 "2024-01-03-12h.jsonl" downloads1 = Some d' ∧
    downloads1 !! most_recent = Some old ∧
    (∀ a, a ∈ new ↔ is_new (fetched nlp1 age1 results3) old a) ∧
    NoDup (title <$> new) ∧
    d' = match new with
         | [] => downloads1
         | _ => <["2024-01-03-12h.jsonl" := new]> downloads1
         end.
Proof.
  destruct sample_main as (d' & Hmain).
  destruct (main_writes_new nlp1 age1 results3 "2024-01-03-12h.jsonl"
              downloads1 d' Hmain)
    as (recent & old & new & H1 & _ & _ & H4 & H5 & _ & H7).
  exists d', recent, old, new. split; [exact Hmain |].
  split; [exact H1 |]. split; [exact H4 |]. split; [exact H5 | exact H7].
Defined.

Lemma sample_main_same :
  ∃ d', main nlp1 age1 results3 "2024-01-02-10h.jsonl" downloads1 = Some d' ∧
        d' !! "2024-01-02-10h.jsonl"
        = Some [mkArticle "2024-01-03 10:00:00" "T1" "one" ["one"] "id1"].
Proof.
  unfold main. rewrite sample_recent. cbn [mbind option_bind].
  eexists. split; [reflexivity | vm_compute; reflexivity].
Defined.

Lemma same_file_replaced_witness :
  [mkArticle "2024-01-03 10:00:00" "T1" "one" ["one"] "id1"]
  = [mkArticle "2024-01-02 09:00:00" "T0" "old" ["old"] "id0"] ∨
  ∀ a, a ∈ [mkArticle "2024-01-02 09:00:00" "T0" "old" ["old"] "id0"] →
       title a ∉ title <$> [mkArticle "2024-01-03 10:00:00" "T1" "one" ["one"] "id1"].
Proof.
  destruct sample_main_same as (d' & Hmain & Hnew).
  apply (same_file_replaced nlp1 age1 results3 "2024-01-02-10h.jsonl"
           downloads1 d' _ _ Hmain).
  - exact sample_recent.
  - vm_compute. reflexivity.
  - exact Hnew.
Defined.

Lemma sample_dedup :
  dedup_stream abstract (get_raw_download_stream downloads3)
  = [art "2024-01-02 09:00:00" "A" []; art "2024-01-01 10:00:00" "C" []].
Proof. vm_compute. reflexivity. Defined.

Lemma clean_stream_round_trip_witness :
  ∃ fs1,
    save_clean_download_stream jsonl1 downloads3 ∅ = Some fs1 ∧
    get_clean_download_stream read1 fs1
      ≡ₚ mutate_created
           <$> dedup_stream abstract (get_raw_download_stream downloads3) ∧
    NoDup (abstract <$> get_clean_download_stream read1 fs1) ∧
    (Forall (λ a, 10 ≤ String.length (created a))
            (dedup_stream abstract (get_raw_download_stream downloads3)) →
     StronglySorted (not_older created) (get_clean_download_stream read1 fs1)).
Proof.
  apply (clean_stream_round_trip jsonl1 read1 downloads3).
  rewrite sample_dedup. intros a Ha.
  repeat (apply elem_of_cons in Ha as [-> | Ha]);
    [vm_compute; reflexivity | vm_compute; reflexivity |
     by apply elem_of_nil in Ha].
Defined.

End more_instances.
